(** * Scheme environment-diagram generator: the evaluator and its bookkeeping

A shallow embedding of the interpreter core of [Grapher.py],
[Grapher2.py] and [Grapher3.py]: the classes [Closure], [Environment]
and [SchemeInterpreter] (without [visualize], which only reads the
recorded frames and closures).

Python objects are modelled as follows.
- An [Environment] object always lives in [self.envs] and is never
  removed from it, so a reference to one (the [env] argument of
  [eval_expr], the [parent] attribute, [self.global_env]) is the
  position of the object in [self.envs].  Mutating an object through
  any reference is an update of that position of the list.
- A [Closure] object is never mutated after [__init__], so a reference
  to one is the record itself.
- The module-global [closure_counter] is a component of the state next
  to the interpreter instance.
- Python recursion is bounded by a fuel argument. *)

From Stdlib Require Import ZArith.
From Stdlib Require Import Floats.SpecFloat.
From stdpp Require Import gmap strings list fin_maps.

(** ** Numbers: Python [int] and [float] *)

(** [float] is IEEE 754 binary64, [int] is unbounded. *)
Definition prec : Z := 53.
Definition emax : Z := 1024.

Inductive number :=
| PyInt (z : Z)
| PyFloat (f : spec_float).

(** ** Syntax values, as produced by [sexpdata.loads] *)

#[warnings="-register-all"]
Inductive sexp :=
| Num (n : number)
| Symbol (s : string)
| SList (l : list sexp).

(** ** Values *)

(** [Closure.__init__]: [id], [params], [body] and the defining
    environment id ([env_id] in Grapher.py, [def_env_id] in Grapher2.py and
    Grapher3.py). *)
Record Closure := mkClosure {
  closure_id : nat;
  params : list string;
  body : sexp;
  def_env_id : nat
}.

(** The four lambdas of [_initialize_builtins]. *)
Inductive builtin := Add | Sub | Mul | Div.

Inductive value :=
| VNum (n : number)
| VClosure (c : Closure)
| VBuiltin (b : builtin)
| VNone.

(** ** Exceptions *)

Inductive exn :=
| NameError (var : string)      (* raise NameError(f"Unbound variable: {var}") *)
| NotCallable (proc : value)    (* raise TypeError(f"Attempted to call non-callable: {proc}") *)
| TypeError                     (* raised by Python: wrong operand, arity, unpacking a non-iterable *)
| ValueError                    (* raised by Python: unpacking a list of the wrong length *)
| IndexError                    (* raised by Python: args[0] on an empty list *)
| AttributeError                (* raised by Python: .value() on a number or a list *)
| ZeroDivisionError
| OverflowError.

(** The result of a computation: a value, a Python exception, or one of
    the two ways the model can stop where Python would not: the recursion
    did not finish within the fuel, or an environment reference points
    outside [self.envs]. *)
Inductive outcome (A : Type) :=
| Return (a : A)
| Raise (e : exn)
| OutOfFuel
| Dangling.
Arguments Return {A} a.
Arguments Raise {A} e.
Arguments OutOfFuel {A}.
Arguments Dangling {A}.

Definition outcome_bind {A B} (f : A → outcome B) (o : outcome A) : outcome B :=
  match o with
  | Return a => f a
  | Raise e => Raise e
  | OutOfFuel => OutOfFuel
  | Dangling => Dangling
  end.

Definition outcome_map {A B} (f : A → B) (o : outcome A) : outcome B :=
  match o with
  | Return a => Return (f a)
  | Raise e => Raise e
  | OutOfFuel => OutOfFuel
  | Dangling => Dangling
  end.

#[global] Instance outcome_fmap : FMap outcome := @outcome_map.
#[global] Instance outcome_mbind : MBind outcome := @outcome_bind.
#[global] Instance outcome_mret : MRet outcome := @Return.

(** Computations over a state [S]: the state survives an exception. *)
Definition M (S A : Type) : Type := S → outcome A * S.

Definition ret {S A} (a : A) : M S A := λ st, (Return a, st).
Definition raise {S A} (e : exn) : M S A := λ st, (Raise e, st).
Definition out_of_fuel {S A} : M S A := λ st, (OutOfFuel, st).
Definition lift {S A} (o : outcome A) : M S A := λ st, (o, st).
Definition bind {S A B} (m : M S A) (k : A → M S B) : M S B :=
  λ st, match m st with
        | (Return a, st') => k a st'
        | (Raise e, st') => (Raise e, st')
        | (OutOfFuel, st') => (OutOfFuel, st')
        | (Dangling, st') => (Dangling, st')
        end.

Notation "'do' x <- m ; k" := (bind m (λ x, k))
  (at level 10, x name, m at level 100, k at level 200,
   format "'[v' 'do'  x  <-  m ; '/' k ']'").
Notation "'do_' m ; k" := (bind m (λ _, k))
  (at level 10, m at level 100, k at level 200,
   format "'[v' 'do_'  m ; '/' k ']'").

(** ** Arithmetic of the builtins *)

Definition is_infinity (f : spec_float) : bool :=
  match f with S754_infinity _ => true | _ => false end.

Definition is_zero (f : spec_float) : bool :=
  match f with S754_zero _ => true | _ => false end.

(** [float(z)]: rounds to nearest even, [OverflowError] beyond the range. *)
Definition int_to_float (z : Z) : outcome spec_float :=
  let f := binary_normalize prec emax z 0 false in
  if is_infinity f then Raise OverflowError else Return f.

Definition to_float (n : number) : outcome spec_float :=
  match n with
  | PyInt z => int_to_float z
  | PyFloat f => Return f
  end.

(** An integer as an unrounded binary float, for the true division of two
    [int]s, which rounds the exact quotient once. *)
Definition exact_int (z : Z) : spec_float :=
  match z with
  | Z0 => S754_zero false
  | Zpos p => S754_finite false p 0
  | Zneg p => S754_finite true p 0
  end.

(** [x + y], [x - y], [x * y] on numbers. *)
Definition arith (fz : Z → Z → Z) (ff : spec_float → spec_float → spec_float)
    (x y : number) : outcome number :=
  match x, y with
  | PyInt a, PyInt b => Return (PyInt (fz a b))
  | _, _ =>
      a ← to_float x;
      b ← to_float y;
      Return (PyFloat (ff a b))
  end.

(** [x / y] on numbers. *)
Definition truediv (x y : number) : outcome number :=
  match x, y with
  | PyInt a, PyInt b =>
      if (b =? 0)%Z then Raise ZeroDivisionError
      else
        let q := SFdiv prec emax (exact_int a) (exact_int b) in
        if is_infinity q then Raise OverflowError else Return (PyFloat q)
  | _, _ =>
      a ← to_float x;
      b ← to_float y;
      if is_zero b then Raise ZeroDivisionError
      else Return (PyFloat (SFdiv prec emax a b))
  end.

Definition binop (b : builtin) (x y : number) : outcome number :=
  match b with
  | Add => arith Z.add (SFadd prec emax) x y
  | Sub => arith Z.sub (SFsub prec emax) x y
  | Mul => arith Z.mul (SFmul prec emax) x y
  | Div => truediv x y
  end.

(** [proc( *evaluated_args )] for a builtin: a lambda of two parameters
    whose body applies the operator; an operand that is not a number has
    no such operator. *)
Definition call_builtin (b : builtin) (evaluated_args : list value) : outcome value :=
  match evaluated_args with
  | [VNum x; VNum y] => n ← binop b x y; Return (VNum n)
  | _ => Raise TypeError
  end.

(** [p.value()], [var_sym.value()]: only a [Symbol] has the method. *)
Definition symbol_value (e : sexp) : outcome string :=
  match e with
  | Symbol s => Return s
  | _ => Raise AttributeError
  end.

(** [op == sexpdata.Symbol(name)] *)
Definition is_symbol (name : string) (e : sexp) : bool :=
  match e with
  | Symbol s => bool_decide (s = name)
  | _ => false
  end.

(** The heads [eval_expr] tests for, in this order, before it falls back
    to a function call. *)
Definition keywords : list string := ["define"; "lambda"; "begin"; "let"; "set!"].

Definition is_keyword (e : sexp) : bool :=
  existsb (λ k, is_symbol k e) keywords.

(** What a loop over a syntax value yields.  A list yields its elements.
    A [Symbol] is a [str]: it yields the characters of its name (the
    [ascii]s of the [string]), each of them a plain [str] of length one,
    which is not a [Symbol]. *)
Inductive element :=
| Elem (e : sexp)
| Char (c : Ascii.ascii).

(** [for x in e]: a number is not iterable. *)
Definition iterate (e : sexp) : outcome (list element) :=
  match e with
  | SList l => Return (Elem <$> l)
  | Symbol s => Return (Char <$> String.list_ascii_of_string s)
  | Num _ => Raise TypeError
  end.

(** The same for what a loop yielded: a character yields itself. *)
Definition iterate_element (x : element) : outcome (list element) :=
  match x with
  | Elem e => iterate e
  | Char c => Return [Char c]
  end.

(** [a, b = x] *)
Definition unpack2 (x : element) : outcome (element * element) :=
  l ← iterate_element x;
  match l with
  | [a; b] => Return (a, b)
  | _ => Raise ValueError
  end.

(** [x.value()] on what a loop yielded: a plain [str] has no such method. *)
Definition element_value (x : element) : outcome string :=
  match x with
  | Elem e => symbol_value e
  | Char _ => Raise AttributeError
  end.

(** [[p.value() for p in params]] *)
Fixpoint values_of (l : list element) : outcome (list string) :=
  match l with
  | [] => Return []
  | p :: l => s ← element_value p; r ← values_of l; Return (s :: r)
  end.

Definition param_names (params : sexp) : outcome (list string) :=
  l ← iterate params; values_of l.

(** The body stored in a closure: the only body expression, or all of
    them under [begin]. *)
Definition closure_body (body_exprs : list sexp) : sexp :=
  match body_exprs with
  | [b] => b
  | _ => SList (Symbol "begin" :: body_exprs)
  end.

(** * Grapher.py *)

Module Grapher.

(** [class Environment]; [parent] is [None] or a reference. *)
Record Environment := mkEnvironment {
  env_id : nat;
  parent : option nat;
  bindings : gmap string value
}.

(** [class SchemeInterpreter] ([graph] belongs to the renderer). *)
Record SchemeInterpreter := mkInterpreter {
  envs : list Environment;
  closures : list Closure
}.

(** The module-global counter and one interpreter instance. *)
Record state := mkState {
  closure_counter : nat;
  self : SchemeInterpreter
}.

Definition set_envs (l : list Environment) (st : state) : state :=
  mkState (closure_counter st) (mkInterpreter l (closures (self st))).

(** [Environment.define]: [self.bindings[var] = value] *)
Definition define_in (var : string) (val : value) (e : Environment) : Environment :=
  mkEnvironment (env_id e) (parent e) (<[var := val]> (bindings e)).

(** [Environment.lookup], on the object at position [env] of [l]. *)
Fixpoint lookup_from (fuel : nat) (l : list Environment) (env : nat) (var : string)
    : outcome value :=
  match fuel with
  | O => OutOfFuel
  | S fuel =>
      match l !! env with
      | None => Dangling
      | Some e =>
          match bindings e !! var with
          | Some v => Return v
          | None =>
              match parent e with
              | Some p => lookup_from fuel l p var
              | None => Raise (NameError var)
              end
          end
      end
  end.

(** [Environment.update]: the list of environments after the call. *)
Fixpoint update_from (fuel : nat) (l : list Environment) (env : nat) (var : string)
    (val : value) : outcome (list Environment) :=
  match fuel with
  | O => OutOfFuel
  | S fuel =>
      match l !! env with
      | None => Dangling
      | Some e =>
          match bindings e !! var with
          | Some _ => Return (<[env := define_in var val e]> l)
          | None =>
              match parent e with
              | Some p => update_from fuel l p var val
              | None => Raise (NameError var)
              end
          end
      end
  end.

(** A parent chain that does not end within [length l] steps has a cycle,
    on which the recursion of [lookup] and [update] never ends. *)
Definition lookup (env : nat) (var : string) : M state value :=
  λ st, (lookup_from (length (envs (self st))) (envs (self st)) env var, st).

Definition update (env : nat) (var : string) (val : value) : M state unit :=
  λ st, match update_from (length (envs (self st))) (envs (self st)) env var val with
        | Return l => (Return (), set_envs l st)
        | Raise e => (Raise e, st)
        | OutOfFuel => (OutOfFuel, st)
        | Dangling => (Dangling, st)
        end.

Definition define (env : nat) (var : string) (val : value) : M state unit :=
  λ st, match envs (self st) !! env with
        | Some e => (Return (), set_envs (<[env := define_in var val e]> (envs (self st))) st)
        | None => (Dangling, st)
        end.

(** [env.env_id] *)
Definition get_env_id (env : nat) : M state nat :=
  λ st, match envs (self st) !! env with
        | Some e => (Return (env_id e), st)
        | None => (Dangling, st)
        end.

(** [self.envs[i]]: the reference to the object at position [i]. *)
Definition envs_index (i : nat) : M state nat :=
  λ st, if decide (i < length (envs (self st))) then (Return i, st)
        else (Raise IndexError, st).

(** [SchemeInterpreter.new_env] *)
Definition new_env (parent_env : nat) : M state nat :=
  λ st,
    let env_id := length (envs (self st)) in
    let e := mkEnvironment env_id (Some parent_env) ∅ in
    (Return (length (envs (self st))), set_envs (envs (self st) ++ [e]) st).

(** [SchemeInterpreter.new_closure], with [Closure.__init__] inlined. *)
Definition new_closure (params : list string) (body : sexp) (env_id : nat)
    : M state Closure :=
  λ st,
    let c := mkClosure (closure_counter st) params body env_id in
    (Return c,
     mkState (S (closure_counter st))
             (mkInterpreter (envs (self st)) (closures (self st) ++ [c]))).

(** [SchemeInterpreter.__init__] with [_initialize_builtins] *)
Definition global_env : nat := 0.

Definition init : SchemeInterpreter :=
  let global_env := mkEnvironment 0 None ∅ in
  let global_env := define_in "+" (VBuiltin Add) global_env in
  let global_env := define_in "-" (VBuiltin Sub) global_env in
  let global_env := define_in "*" (VBuiltin Mul) global_env in
  let global_env := define_in "/" (VBuiltin Div) global_env in
  mkInterpreter [global_env] [].

(** The loops of [eval_expr], over its recursive calls. *)
Section Loops.
Variable eval : sexp → nat → M state value.

(** [result = None; for subexpr in exprs: result = eval(subexpr, env)] *)
Fixpoint eval_each (result : value) (exprs : list sexp) (env : nat) : M state value :=
  match exprs with
  | [] => ret result
  | subexpr :: exprs =>
      do result <- eval subexpr env;
      eval_each result exprs env
  end.

(** [eval(x, env)] on what a loop yielded: a plain [str] is no number, no
    [Symbol] and no list, and [eval_expr] returns [None] for it. *)
Definition eval_element (x : element) (env : nat) : M state value :=
  match x with
  | Elem e => eval e env
  | Char _ => ret VNone
  end.

(** The binding loop of [let]. *)
Fixpoint bind_let (binding_list : list element) (env let_env : nat) : M state unit :=
  match binding_list with
  | [] => ret ()
  | binding :: binding_list =>
      do b <- lift (unpack2 binding);
      do val <- eval_element b.2 env;
      do var <- lift (element_value b.1);
      do_ define let_env var val;
      bind_let binding_list env let_env
  end.

(** [[eval(a, env) for a in args]] *)
Fixpoint eval_args (args : list sexp) (env : nat) : M state (list value) :=
  match args with
  | [] => ret []
  | a :: args =>
      do v <- eval a env;
      do vs <- eval_args args env;
      ret (v :: vs)
  end.

(** [for param, arg_expr in zip(proc.params, args)] *)
Fixpoint bind_params (params : list string) (args : list sexp) (env call_env : nat)
    : M state unit :=
  match params, args with
  | param :: params, arg_expr :: args =>
      do val <- eval arg_expr env;
      do_ define call_env param val;
      bind_params params args env call_env
  | _, _ => ret ()
  end.
End Loops.

(** [SchemeInterpreter.eval_expr]: a number, a symbol, the empty list,
    the five special forms in the order of the tests, the function call. *)
Fixpoint eval_expr (fuel : nat) (expr : sexp) (env : nat) {struct fuel} : M state value :=
  match fuel with
  | O => out_of_fuel
  | S fuel =>
      match expr with
      | Num n => ret (VNum n)
      | Symbol s => lookup env s
      | SList [] => ret VNone
      | SList (op :: args) =>
          if is_symbol "define" op then
            match args with
            | [var_symbol; val_expr] =>
                do val <- eval_expr fuel val_expr env;
                do var <- lift (symbol_value var_symbol);
                do_ define env var val;
                ret val
            | _ => raise ValueError
            end
          else if is_symbol "lambda" op then
            match args with
            | [] => raise IndexError
            | params :: body_exprs =>
                let body := closure_body body_exprs in
                do ps <- lift (param_names params);
                do i <- get_env_id env;
                do closure_obj <- new_closure ps body i;
                ret (VClosure closure_obj)
            end
          else if is_symbol "begin" op then
            eval_each (eval_expr fuel) VNone args env
          else if is_symbol "let" op then
            match args with
            | [] => raise IndexError
            | binding_list :: body_exprs =>
                do let_env <- new_env env;
                do bl <- lift (iterate binding_list);
                do_ bind_let (eval_expr fuel) bl env let_env;
                eval_each (eval_expr fuel) VNone body_exprs let_env
            end
          else if is_symbol "set!" op then
            match args with
            | [var_sym; val_expr] =>
                do val <- eval_expr fuel val_expr env;
                do var <- lift (symbol_value var_sym);
                do_ update env var val;
                ret val
            | _ => raise ValueError
            end
          else
            do proc <- eval_expr fuel op env;
            match proc with
            | VBuiltin b =>
                do evaluated_args <- eval_args (eval_expr fuel) args env;
                lift (call_builtin b evaluated_args)
            | VClosure c =>
                do defining <- envs_index (def_env_id c);
                do call_env <- new_env defining;
                do_ bind_params (eval_expr fuel) (params c) args env call_env;
                eval_expr fuel (body c) call_env
            | _ => raise (NotCallable proc)
            end
      end
  end.

(** [SchemeInterpreter.run] after the reader and before [visualize]. *)
Fixpoint run (fuel : nat) (exprs : list sexp) : M state unit :=
  match exprs with
  | [] => ret ()
  | expr :: exprs =>
      do_ eval_expr fuel expr global_env;
      run fuel exprs
  end.

End Grapher.

(** * Grapher2.py

[class Environment] and the attributes of [class SchemeInterpreter]
are those of Grapher.py, so the records are shared; the methods are
embedded again from this file. *)

Module Grapher2.

Abbreviation Environment := Grapher.Environment.
Abbreviation mkEnvironment := Grapher.mkEnvironment.
Abbreviation env_id := Grapher.env_id.
Abbreviation parent := Grapher.parent.
Abbreviation bindings := Grapher.bindings.
Abbreviation SchemeInterpreter := Grapher.SchemeInterpreter.
Abbreviation mkInterpreter := Grapher.mkInterpreter.
Abbreviation envs := Grapher.envs.
Abbreviation closures := Grapher.closures.
Abbreviation state := Grapher.state.
Abbreviation mkState := Grapher.mkState.
Abbreviation closure_counter := Grapher.closure_counter.
Abbreviation self := Grapher.self.

Definition set_envs (l : list Environment) (st : state) : state :=
  mkState (closure_counter st) (mkInterpreter l (closures (self st))).

(** [Environment.define]: [self.bindings[var] = value] *)
Definition define_in (var : string) (val : value) (e : Environment) : Environment :=
  mkEnvironment (env_id e) (parent e) (<[var := val]> (bindings e)).

(** [Environment.lookup], on the object at position [env] of [l]. *)
Fixpoint lookup_from (fuel : nat) (l : list Environment) (env : nat) (var : string)
    : outcome value :=
  match fuel with
  | O => OutOfFuel
  | S fuel =>
      match l !! env with
      | None => Dangling
      | Some e =>
          match bindings e !! var with
          | Some v => Return v
          | None =>
              match parent e with
              | Some p => lookup_from fuel l p var
              | None => Raise (NameError var)
              end
          end
      end
  end.

(** [Environment.update]: the list of environments after the call. *)
Fixpoint update_from (fuel : nat) (l : list Environment) (env : nat) (var : string)
    (val : value) : outcome (list Environment) :=
  match fuel with
  | O => OutOfFuel
  | S fuel =>
      match l !! env with
      | None => Dangling
      | Some e =>
          match bindings e !! var with
          | Some _ => Return (<[env := define_in var val e]> l)
          | None =>
              match parent e with
              | Some p => update_from fuel l p var val
              | None => Raise (NameError var)
              end
          end
      end
  end.

(** A parent chain that does not end within [length l] steps has a cycle,
    on which the recursion of [lookup] and [update] never ends. *)
Definition lookup (env : nat) (var : string) : M state value :=
  λ st, (lookup_from (length (envs (self st))) (envs (self st)) env var, st).

Definition update (env : nat) (var : string) (val : value) : M state unit :=
  λ st, match update_from (length (envs (self st))) (envs (self st)) env var val with
        | Return l => (Return (), set_envs l st)
        | Raise e => (Raise e, st)
        | OutOfFuel => (OutOfFuel, st)
        | Dangling => (Dangling, st)
        end.

Definition define (env : nat) (var : string) (val : value) : M state unit :=
  λ st, match envs (self st) !! env with
        | Some e => (Return (), set_envs (<[env := define_in var val e]> (envs (self st))) st)
        | None => (Dangling, st)
        end.

(** [env.env_id] *)
Definition get_env_id (env : nat) : M state nat :=
  λ st, match envs (self st) !! env with
        | Some e => (Return (env_id e), st)
        | None => (Dangling, st)
        end.

(** [self.envs[i]]: the reference to the object at position [i]. *)
Definition envs_index (i : nat) : M state nat :=
  λ st, if decide (i < length (envs (self st))) then (Return i, st)
        else (Raise IndexError, st).

(** [SchemeInterpreter.new_env] *)
Definition new_env (parent_env : nat) : M state nat :=
  λ st,
    let env_id := length (envs (self st)) in
    let e := mkEnvironment env_id (Some parent_env) ∅ in
    (Return (length (envs (self st))), set_envs (envs (self st) ++ [e]) st).

(** [SchemeInterpreter.new_closure], with [Closure.__init__] inlined. *)
Definition new_closure (params : list string) (body : sexp) (def_env_id : nat)
    : M state Closure :=
  λ st,
    let c := mkClosure (closure_counter st) params body def_env_id in
    (Return c,
     mkState (S (closure_counter st))
             (mkInterpreter (envs (self st)) (closures (self st) ++ [c]))).

(** [SchemeInterpreter.__init__] with [_initialize_builtins] *)
Definition global_env : nat := 0.

Definition init : SchemeInterpreter :=
  let global_env := mkEnvironment 0 None ∅ in
  let global_env := define_in "+" (VBuiltin Add) global_env in
  let global_env := define_in "-" (VBuiltin Sub) global_env in
  let global_env := define_in "*" (VBuiltin Mul) global_env in
  let global_env := define_in "/" (VBuiltin Div) global_env in
  mkInterpreter [global_env] [].

(** The loops of [eval_expr], over its recursive calls. *)
Section Loops.
Variable eval : sexp → nat → M state value.

(** [result = None; for subexpr in exprs: result = eval(subexpr, env)] *)
Fixpoint eval_each (result : value) (exprs : list sexp) (env : nat) : M state value :=
  match exprs with
  | [] => ret result
  | subexpr :: exprs =>
      do result <- eval subexpr env;
      eval_each result exprs env
  end.

(** [eval(x, env)] on what a loop yielded: a plain [str] is no number, no
    [Symbol] and no list, and [eval_expr] returns [None] for it. *)
Definition eval_element (x : element) (env : nat) : M state value :=
  match x with
  | Elem e => eval e env
  | Char _ => ret VNone
  end.

(** The binding loop of [let]. *)
Fixpoint bind_let (binding_list : list element) (env let_env : nat) : M state unit :=
  match binding_list with
  | [] => ret ()
  | binding :: binding_list =>
      do b <- lift (unpack2 binding);
      do val <- eval_element b.2 env;
      do var <- lift (element_value b.1);
      do_ define let_env var val;
      bind_let binding_list env let_env
  end.

(** [[eval(a, env) for a in args]] *)
Fixpoint eval_args (args : list sexp) (env : nat) : M state (list value) :=
  match args with
  | [] => ret []
  | a :: args =>
      do v <- eval a env;
      do vs <- eval_args args env;
      ret (v :: vs)
  end.

(** [for param, arg_expr in zip(proc.params, args)] *)
Fixpoint bind_params (params : list string) (args : list sexp) (env call_env : nat)
    : M state unit :=
  match params, args with
  | param :: params, arg_expr :: args =>
      do val <- eval arg_expr env;
      do_ define call_env param val;
      bind_params params args env call_env
  | _, _ => ret ()
  end.
End Loops.

(** [SchemeInterpreter.eval_expr], with [elif]/[else] in the function
    call. *)
Fixpoint eval_expr (fuel : nat) (expr : sexp) (env : nat) {struct fuel} : M state value :=
  match fuel with
  | O => out_of_fuel
  | S fuel =>
      match expr with
      | Num n => ret (VNum n)
      | Symbol s => lookup env s
      | SList [] => ret VNone
      | SList (op :: args) =>
          if is_symbol "define" op then
            match args with
            | [var_sym; val_expr] =>
                do val <- eval_expr fuel val_expr env;
                do var <- lift (symbol_value var_sym);
                do_ define env var val;
                ret val
            | _ => raise ValueError
            end
          else if is_symbol "lambda" op then
            match args with
            | [] => raise IndexError
            | params :: body_exprs =>
                let body := closure_body body_exprs in
                do ps <- lift (param_names params);
                do i <- get_env_id env;
                do closure_obj <- new_closure ps body i;
                ret (VClosure closure_obj)
            end
          else if is_symbol "begin" op then
            eval_each (eval_expr fuel) VNone args env
          else if is_symbol "let" op then
            match args with
            | [] => raise IndexError
            | binding_list :: body_exprs =>
                do let_env <- new_env env;
                do bl <- lift (iterate binding_list);
                do_ bind_let (eval_expr fuel) bl env let_env;
                eval_each (eval_expr fuel) VNone body_exprs let_env
            end
          else if is_symbol "set!" op then
            match args with
            | [var_sym; val_expr] =>
                do val <- eval_expr fuel val_expr env;
                do var <- lift (symbol_value var_sym);
                do_ update env var val;
                ret val
            | _ => raise ValueError
            end
          else
            do proc <- eval_expr fuel op env;
            match proc with
            | VBuiltin b =>
                do evaluated_args <- eval_args (eval_expr fuel) args env;
                lift (call_builtin b evaluated_args)
            | VClosure c =>
                do defining <- envs_index (def_env_id c);
                do call_env <- new_env defining;
                do_ bind_params (eval_expr fuel) (params c) args env call_env;
                eval_expr fuel (body c) call_env
            | _ => raise (NotCallable proc)
            end
      end
  end.

(** [SchemeInterpreter.run] after the reader and before [visualize]. *)
Fixpoint run (fuel : nat) (exprs : list sexp) : M state unit :=
  match exprs with
  | [] => ret ()
  | expr :: exprs =>
      do_ eval_expr fuel expr global_env;
      run fuel exprs
  end.

End Grapher2.

(** * Grapher3.py *)

Module Grapher3.

(** [class Environment], with the flag [is_global] of this variant. *)
Record Environment := mkEnvironment {
  env_id : nat;
  parent : option nat;
  is_global : bool;
  bindings : gmap string value
}.

Record SchemeInterpreter := mkInterpreter {
  envs : list Environment;
  closures : list Closure
}.

Record state := mkState {
  closure_counter : nat;
  self : SchemeInterpreter
}.

Definition set_envs (l : list Environment) (st : state) : state :=
  mkState (closure_counter st) (mkInterpreter l (closures (self st))).

(** [Environment.define]: [self.bindings[var] = value] *)
Definition define_in (var : string) (val : value) (e : Environment) : Environment :=
  mkEnvironment (env_id e) (parent e) (is_global e) (<[var := val]> (bindings e)).

(** [Environment.lookup], on the object at position [env] of [l]. *)
Fixpoint lookup_from (fuel : nat) (l : list Environment) (env : nat) (var : string)
    : outcome value :=
  match fuel with
  | O => OutOfFuel
  | S fuel =>
      match l !! env with
      | None => Dangling
      | Some e =>
          match bindings e !! var with
          | Some v => Return v
          | None =>
              match parent e with
              | Some p => lookup_from fuel l p var
              | None => Raise (NameError var)
              end
          end
      end
  end.

(** [Environment.update]: the list of environments after the call. *)
Fixpoint update_from (fuel : nat) (l : list Environment) (env : nat) (var : string)
    (val : value) : outcome (list Environment) :=
  match fuel with
  | O => OutOfFuel
  | S fuel =>
      match l !! env with
      | None => Dangling
      | Some e =>
          match bindings e !! var with
          | Some _ => Return (<[env := define_in var val e]> l)
          | None =>
              match parent e with
              | Some p => update_from fuel l p var val
              | None => Raise (NameError var)
              end
          end
      end
  end.

(** A parent chain that does not end within [length l] steps has a cycle,
    on which the recursion of [lookup] and [update] never ends. *)
Definition lookup (env : nat) (var : string) : M state value :=
  λ st, (lookup_from (length (envs (self st))) (envs (self st)) env var, st).

Definition update (env : nat) (var : string) (val : value) : M state unit :=
  λ st, match update_from (length (envs (self st))) (envs (self st)) env var val with
        | Return l => (Return (), set_envs l st)
        | Raise e => (Raise e, st)
        | OutOfFuel => (OutOfFuel, st)
        | Dangling => (Dangling, st)
        end.

Definition define (env : nat) (var : string) (val : value) : M state unit :=
  λ st, match envs (self st) !! env with
        | Some e => (Return (), set_envs (<[env := define_in var val e]> (envs (self st))) st)
        | None => (Dangling, st)
        end.

(** [env.env_id] *)
Definition get_env_id (env : nat) : M state nat :=
  λ st, match envs (self st) !! env with
        | Some e => (Return (env_id e), st)
        | None => (Dangling, st)
        end.

(** [self.envs[i]]: the reference to the object at position [i]. *)
Definition envs_index (i : nat) : M state nat :=
  λ st, if decide (i < length (envs (self st))) then (Return i, st)
        else (Raise IndexError, st).

(** [SchemeInterpreter.new_env] *)
Definition new_env (parent_env : nat) : M state nat :=
  λ st,
    let env_id := length (envs (self st)) in
    let e := mkEnvironment env_id (Some parent_env) false ∅ in
    (Return (length (envs (self st))), set_envs (envs (self st) ++ [e]) st).

(** [SchemeInterpreter.new_closure], with [Closure.__init__] inlined. *)
Definition new_closure (params : list string) (body : sexp) (def_env_id : nat)
    : M state Closure :=
  λ st,
    let c := mkClosure (closure_counter st) params body def_env_id in
    (Return c,
     mkState (S (closure_counter st))
             (mkInterpreter (envs (self st)) (closures (self st) ++ [c]))).

(** [SchemeInterpreter.__init__] with [_initialize_builtins] *)
Definition global_env : nat := 0.

Definition init : SchemeInterpreter :=
  let global_env := mkEnvironment 0 None true ∅ in
  let global_env := define_in "+" (VBuiltin Add) global_env in
  let global_env := define_in "-" (VBuiltin Sub) global_env in
  let global_env := define_in "*" (VBuiltin Mul) global_env in
  let global_env := define_in "/" (VBuiltin Div) global_env in
  mkInterpreter [global_env] [].

(** The loops of [eval_expr], over its recursive calls. *)
Section Loops.
Variable eval : sexp → nat → M state value.

(** [result = None; for subexpr in exprs: result = eval(subexpr, env)] *)
Fixpoint eval_each (result : value) (exprs : list sexp) (env : nat) : M state value :=
  match exprs with
  | [] => ret result
  | subexpr :: exprs =>
      do result <- eval subexpr env;
      eval_each result exprs env
  end.

(** [eval(x, env)] on what a loop yielded: a plain [str] is no number, no
    [Symbol] and no list, and [eval_expr] returns [None] for it. *)
Definition eval_element (x : element) (env : nat) : M state value :=
  match x with
  | Elem e => eval e env
  | Char _ => ret VNone
  end.

(** The binding loop of [let]. *)
Fixpoint bind_let (binding_list : list element) (env let_env : nat) : M state unit :=
  match binding_list with
  | [] => ret ()
  | binding :: binding_list =>
      do b <- lift (unpack2 binding);
      do val <- eval_element b.2 env;
      do var <- lift (element_value b.1);
      do_ define let_env var val;
      bind_let binding_list env let_env
  end.

(** [[eval(a, env) for a in args]] *)
Fixpoint eval_args (args : list sexp) (env : nat) : M state (list value) :=
  match args with
  | [] => ret []
  | a :: args =>
      do v <- eval a env;
      do vs <- eval_args args env;
      ret (v :: vs)
  end.

(** [for param, arg_expr in zip(proc.params, args)] *)
Fixpoint bind_params (params : list string) (args : list sexp) (env call_env : nat)
    : M state unit :=
  match params, args with
  | param :: params, arg_expr :: args =>
      do val <- eval arg_expr env;
      do_ define call_env param val;
      bind_params params args env call_env
  | _, _ => ret ()
  end.
End Loops.

(** [SchemeInterpreter.eval_expr]: the test is [isinstance(expr, list) and
    expr], so the empty list reaches the final [return None]. *)
Fixpoint eval_expr (fuel : nat) (expr : sexp) (env : nat) {struct fuel} : M state value :=
  match fuel with
  | O => out_of_fuel
  | S fuel =>
      match expr with
      | Num n => ret (VNum n)
      | Symbol s => lookup env s
      | SList (op :: args) =>
          if is_symbol "define" op then
            match args with
            | [var_sym; val_expr] =>
                do val <- eval_expr fuel val_expr env;
                do var <- lift (symbol_value var_sym);
                do_ define env var val;
                ret val
            | _ => raise ValueError
            end
          else if is_symbol "lambda" op then
            match args with
            | [] => raise IndexError
            | params :: body_exprs =>
                let body := closure_body body_exprs in
                do ps <- lift (param_names params);
                do i <- get_env_id env;
                do c <- new_closure ps body i;
                ret (VClosure c)
            end
          else if is_symbol "begin" op then
            eval_each (eval_expr fuel) VNone args env
          else if is_symbol "let" op then
            match args with
            | [] => raise IndexError
            | binding_list :: body_exprs =>
                do let_env <- new_env env;
                do bl <- lift (iterate binding_list);
                do_ bind_let (eval_expr fuel) bl env let_env;
                eval_each (eval_expr fuel) VNone body_exprs let_env
            end
          else if is_symbol "set!" op then
            match args with
            | [var_sym; val_expr] =>
                do val <- eval_expr fuel val_expr env;
                do var <- lift (symbol_value var_sym);
                do_ update env var val;
                ret val
            | _ => raise ValueError
            end
          else
            do proc <- eval_expr fuel op env;
            match proc with
            | VBuiltin b =>
                do evaluated_args <- eval_args (eval_expr fuel) args env;
                lift (call_builtin b evaluated_args)
            | VClosure c =>
                do defining <- envs_index (def_env_id c);
                do call_env <- new_env defining;
                do_ bind_params (eval_expr fuel) (params c) args env call_env;
                eval_expr fuel (body c) call_env
            | _ => raise (NotCallable proc)
            end
      | SList [] => ret VNone
      end
  end.

(** [SchemeInterpreter.run] after the reader and before [visualize]. *)
Fixpoint run (fuel : nat) (exprs : list sexp) : M state unit :=
  match exprs with
  | [] => ret ()
  | expr :: exprs =>
      do_ eval_expr fuel expr global_env;
      run fuel exprs
  end.

End Grapher3.

(** * Specifications

    The properties below are stated for Grapher.py; the other two variants
    are related to it at the end. *)

Import Grapher.

(** ** Well-formed stores *)

(** What is fixed at the creation of a frame. *)
Definition skeleton (e : Environment) : nat * option nat := (env_id e, parent e).

(** A reference into [self.envs]. *)
Definition valid (env : nat) (st : state) : Prop :=
  env < length (envs (self st)).

(** A closure reference denotes a recorded closure. *)
Definition value_ok (v : value) (st : state) : Prop :=
  match v with
  | VClosure c => c ∈ closures (self st)
  | _ => True
  end.

(** The invariant of the store: the root exists, the id of a frame is its
    position, a parent is an older frame, and closures found in bindings or
    in the registry are recorded and defined in existing frames. *)
Record wf (st : state) : Prop := mkWf {
  wf_root : valid global_env st;
  wf_ids : ∀ i e, envs (self st) !! i = Some e → env_id e = i;
  wf_parent : ∀ i e p, envs (self st) !! i = Some e → parent e = Some p → p < i;
  wf_bindings : ∀ i e x v,
    envs (self st) !! i = Some e → bindings e !! x = Some v → value_ok v st;
  wf_closures : ∀ c, c ∈ closures (self st) → valid (def_env_id c) st
}.

(** [st'] is [st] after some evaluation: frames and closures were only
    appended, the ids and parents of the frames did not change, and the new
    closures took their ids from the counter. *)
Record ext (st st' : state) : Prop := mkExt {
  ext_envs : skeleton <$> envs (self st) `prefix_of` skeleton <$> envs (self st');
  ext_closures : ∃ new,
    closures (self st') = closures (self st) ++ new ∧
    closure_id <$> new = seq (closure_counter st) (length new) ∧
    closure_counter st' = closure_counter st + length new
}.

(** Assertions that further evaluation cannot break. *)
Definition mono (P : state → Prop) : Prop :=
  ∀ st st', ext st st' → P st → P st'.

(** From a well-formed state satisfying [P], [m] reaches a well-formed
    extension, never follows a dangling reference, and a value it returns
    satisfies [Q]. *)
Definition triple {A} (P : state → Prop) (m : M state A) (Q : A → state → Prop) : Prop :=
  ∀ st r st', wf st → P st → m st = (r, st') →
    wf st' ∧ ext st st' ∧
    match r with
    | Return a => Q a st'
    | Dangling => False
    | _ => True
    end.

(** ** Relating the variants *)

(** A frame of Grapher3.py without its flag [is_global]. *)
Definition erase_env (e : Grapher3.Environment) : Environment :=
  mkEnvironment (Grapher3.env_id e) (Grapher3.parent e) (Grapher3.bindings e).

Definition erase (st : Grapher3.state) : state :=
  mkState (Grapher3.closure_counter st)
    (mkInterpreter (erase_env <$> Grapher3.envs (Grapher3.self st))
                   (Grapher3.closures (Grapher3.self st))).

(** [m2], run on a state of another variant, does what [m1] does on the
    state seen through [f]. *)
Definition sim {S1 S2 A} (f : S2 → S1) (m2 : M S2 A) (m1 : M S1 A) : Prop :=
  ∀ st, ((m2 st).1, f (m2 st).2) = m1 (f st).

(** [m] keeps the property [P] of the state. *)
Definition preserves {S A} (P : S → Prop) (m : M S A) : Prop :=
  ∀ st, P st → P (m st).2.

(** In Grapher3.py the flag [is_global] marks the frame at position 0 and
    no other. *)
Definition flags_ok (st : Grapher3.state) : Prop :=
  0 < length (Grapher3.envs (Grapher3.self st)) ∧
  ∀ i e, Grapher3.envs (Grapher3.self st) !! i = Some e →
         Grapher3.is_global e = bool_decide (i = 0).

(** ** Name resolution *)

(** The [n]-th frame on the walk from [env] along the parents. *)
Fixpoint ancestor (l : list Environment) (n : nat) (env : nat) : option nat :=
  match n with
  | O => Some env
  | S n => e ← l !! env; p ← parent e; ancestor l n p
  end.

(** Frame [a] binds [var] to [v]; frame [a] does not bind [var]. *)
Definition binds (l : list Environment) (a : nat) (var : string) (v : value) : Prop :=
  ∃ e, l !! a = Some e ∧ bindings e !! var = Some v.

Definition unbound (l : list Environment) (a : nat) (var : string) : Prop :=
  ∀ e, l !! a = Some e → bindings e !! var = None.

(** [a], [n] steps up from [env], holds the nearest binding of [var]. *)
Definition nearest (l : list Environment) (env : nat) (var : string) (n a : nat) : Prop :=
  ancestor l n env = Some a ∧ is_Some (l !! a ≫= λ e, bindings e !! var) ∧
  ∀ m b, m < n → ancestor l m env = Some b → unbound l b var.

(** [var] is bound neither in [env] nor in any of its ancestors. *)
Definition unbound_everywhere (l : list Environment) (env : nat) (var : string) : Prop :=
  ∀ n a, ancestor l n env = Some a → unbound l a var.

(** ** Programs *)

Definition int (z : Z) : sexp := Num (PyInt z).

(** [(define x 1) (define f (lambda () x))] *)
Definition scoping_definitions : list sexp :=
  [ SList [Symbol "define"; Symbol "x"; int 1];
    SList [Symbol "define"; Symbol "f";
           SList [Symbol "lambda"; SList []; Symbol "x"]] ].

(** [(let ((x 2)) (f))] *)
Definition scoping_call : sexp :=
  SList [Symbol "let"; SList [SList [Symbol "x"; int 2]]; SList [Symbol "f"]].

(** [(let ((x 1) (y 2)) (set! x y) x)] *)
Definition let_set_example : sexp :=
  SList [Symbol "let";
         SList [SList [Symbol "x"; int 1]; SList [Symbol "y"; int 2]];
         SList [Symbol "set!"; Symbol "x"; Symbol "y"];
         Symbol "x"].

(** A binding expression without effect: a number or a symbol. *)
Inductive atom :=
| ANum (n : number)
| ASym (s : string).

Definition atom_expr (a : atom) : sexp :=
  match a with
  | ANum n => Num n
  | ASym s => Symbol s
  end.

(** The value of an atom in frame [env] of the store [l]. *)
Definition atom_value (l : list Environment) (env : nat) (a : atom) : outcome value :=
  match a with
  | ANum n => Return (VNum n)
  | ASym s => lookup_from (length l) l env s
  end.

(** The binding list [((x1 a1) (x2 a2) ...)] of a [let]. *)
Definition binding_forms (bs : list (string * atom)) : sexp :=
  SList ((λ b, SList [Symbol b.1; atom_expr b.2]) <$> bs).

(** The binding table that defining [x1], [x2], ... in this order, with
    the values [vs], makes of the table [m]. *)
Definition define_all (m : gmap string value) (xs : list string) (vs : list value)
    : gmap string value :=
  foldl (λ m b, <[b.1 := b.2]> m) m (zip xs vs).

(** The bindings of the root frame of a fresh interpreter. *)
Definition builtins : gmap string value :=
  <["/" := VBuiltin Div]> (<["*" := VBuiltin Mul]>
    (<["-" := VBuiltin Sub]> (<["+" := VBuiltin Add]> ∅))).

(** The pairing as the specification words it: every argument expression
    is evaluated in the caller's frame, and only those that meet a
    parameter are bound. *)
Fixpoint bind_params_evaluating_all (eval : sexp → nat → M state value)
    (params : list string) (args : list sexp) (env call_env : nat) : M state unit :=
  match args with
  | [] => ret ()
  | arg_expr :: args =>
      do val <- eval arg_expr env;
      match params with
      | param :: params =>
          do_ define call_env param val;
          bind_params_evaluating_all eval params args env call_env
      | [] => bind_params_evaluating_all eval [] args env call_env
      end
  end.

(** [((lambda () 1) z)] *)
Definition extra_argument_call : sexp :=
  SList [SList [Symbol "lambda"; SList []; int 1]; Symbol "z"].

(** [((lambda (a b) a) 1)] and [((lambda (a b) b) 1)] *)
Definition missing_argument_call (result : string) : sexp :=
  SList [SList [Symbol "lambda"; SList [Symbol "a"; Symbol "b"]; Symbol result];
         int 1].

(** ** Values *)

(** The three variants of the specification. *)
Definition three_variants (v : value) : Prop :=
  (∃ n, v = VNum n) ∨ (∃ c, v = VClosure c) ∨ (∃ b, v = VBuiltin b).

(** The variants of the code: [None] besides the three, and a closure is
    one recorded by the interpreter, defined in one of its frames. *)
Definition four_variants (st : state) (v : value) : Prop :=
  (∃ n, v = VNum n) ∨
  (∃ c, v = VClosure c ∧ c ∈ closures (self st) ∧ valid (def_env_id c) st) ∨
  (∃ b, v = VBuiltin b) ∨
  v = VNone.



(** ** Renumbering closures *)

(** A state whose closures were numbered from a counter [d] higher. *)
Definition shift_closure (d : nat) (c : Closure) : Closure :=
  mkClosure (d + closure_id c) (params c) (body c) (def_env_id c).

Definition shift_value (d : nat) (v : value) : value :=
  match v with
  | VClosure c => VClosure (shift_closure d c)
  | _ => v
  end.

Definition shift_exn (d : nat) (e : exn) : exn :=
  match e with
  | NotCallable v => NotCallable (shift_value d v)
  | _ => e
  end.

Definition shift_env (d : nat) (e : Environment) : Environment :=
  mkEnvironment (env_id e) (parent e) (shift_value d <$> bindings e).

Definition shift (d : nat) (st : state) : state :=
  mkState (d + closure_counter st)
    (mkInterpreter (shift_env d <$> envs (self st))
                   (shift_closure d <$> closures (self st))).

Definition shift_outcome {A} (d : nat) (g : A → A) (o : outcome A) : outcome A :=
  match o with
  | Return a => Return (g a)
  | Raise e => Raise (shift_exn d e)
  | OutOfFuel => OutOfFuel
  | Dangling => Dangling
  end.

(** [m2] does on the shifted state what [m1] does on the state, up to the
    shift of the result by [g]. *)
Definition shifted {A} (d : nat) (g : A → A) (m2 m1 : M state A) : Prop :=
  ∀ st, m2 (shift d st) = (shift_outcome d g (m1 st).1, shift d (m1 st).2).

(** Pure steps of the evaluator raise only exceptions without a value. *)
Definition plain {A} (o : outcome A) : Prop :=
  ∀ v, o ≠ Raise (NotCallable v).

(** [(define f (lambda () 1))] *)
Definition one_closure_program : list sexp :=
  [SList [Symbol "define"; Symbol "f"; SList [Symbol "lambda"; SList []; int 1]]].

(** ** What an evaluation never undoes *)

(** [e'] is the frame [e] later on: same id, same parent, and every name
    bound in [e] still bound. *)
Definition keeps (e e' : Environment) : Prop :=
  env_id e' = env_id e ∧ parent e' = parent e ∧
  dom (bindings e) ⊆ dom (bindings e').

(** [st'] has every frame of [st] at its position, with at least its
    bindings, and every closure of [st] at its position. *)
Definition grows (st st' : state) : Prop :=
  (∀ i e, envs (self st) !! i = Some e →
     ∃ e', envs (self st') !! i = Some e' ∧ keeps e e') ∧
  closures (self st) `prefix_of` closures (self st') ∧
  closure_counter st ≤ closure_counter st'.

(** From every state, [m] ends in a state related by [R] to the one it
    started from, also when it raises. *)
Definition always {A} (R : state → state → Prop) (m : M state A) : Prop :=
  ∀ st, R st (m st).2.

(** ** The shape of the store *)

(** The root is the one frame without a parent. *)
Definition rooted (st : state) : Prop :=
  0 < length (envs (self st)) ∧
  ∀ i e, envs (self st) !! i = Some e → (parent e = None ↔ i = 0).

(** The recorded closures have different ids, all below the counter. *)
Definition numbered (st : state) : Prop :=
  (∀ c, c ∈ closures (self st) → closure_id c < closure_counter st) ∧
  NoDup (closure_id <$> closures (self st)).

(** ** Top-level definitions *)

(** The forms [(define x1 n1) (define x2 n2) ...] *)
Definition define_forms (ds : list (string * number)) : list sexp :=
  (λ d, SList [Symbol "define"; Symbol d.1; Num d.2]) <$> ds.

(** The bindings of a frame after these definitions, made in this order. *)
Definition defined (m : gmap string value) (ds : list (string * number))
    : gmap string value :=
  foldl (λ m d, <[d.1 := VNum d.2]> m) m ds.

(** The number that the last definition of [x] in [ds] gives it. *)
Definition last_defined (x : string) (ds : list (string * number)) : option number :=
  snd <$> last (filter (λ d, d.1 = x) ds).

(** A value that is a number. *)
Definition is_number (v : value) : Prop := ∃ n, v = VNum n.

(** ** Fuel *)

(** Whatever [m] ends with, short of running out of fuel, [m'] ends with
    too. *)
Definition settles {A} (m m' : M state A) : Prop :=
  ∀ st r st', m st = (r, st') → r ≠ OutOfFuel → m' st = (r, st').

(** [(define x 1) (define f (lambda () x)) (set! x 2)]: the variable of
    the body is assigned after the closure was made. *)
Definition capture_program : list sexp :=
  [SList [Symbol "define"; Symbol "x"; int 1];
   SList [Symbol "define"; Symbol "f";
          SList [Symbol "lambda"; SList []; Symbol "x"]];
   SList [Symbol "set!"; Symbol "x"; int 2]].

(** [isinstance(n, float)], and [n == 0]. *)
Definition is_float (n : number) : bool :=
  match n with PyFloat _ => true | PyInt _ => false end.

Definition is_div (b : builtin) : bool :=
  match b with Div => true | _ => false end.

Definition number_is_zero (n : number) : bool :=
  match n with PyInt z => (z =? 0)%Z | PyFloat f => is_zero f end.

(** ** The frame of an evaluation *)

(** The loops of the evaluator as the claims word them, over [eval_expr]
    itself.  [install_in_order fuel env target bs] takes the pairs of a
    name and an expression in order: it evaluates the expression in the
    frame [env] and installs the value under the name in the frame
    [target], before it turns to the next pair. *)
Fixpoint install_in_order (fuel : nat) (env target : nat) (bs : list (string * sexp))
    : M state unit :=
  match bs with
  | [] => ret ()
  | (x, e) :: bs =>
      do v <- eval_expr fuel e env;
      do_ define target x v;
      install_in_order fuel env target bs
  end.

(** [values_in_order fuel env es] evaluates the expressions in order, each
    in the frame [env], and returns their values. *)
Fixpoint values_in_order (fuel : nat) (env : nat) (es : list sexp)
    : M state (list value) :=
  match es with
  | [] => ret []
  | e :: es =>
      do v <- eval_expr fuel e env;
      do vs <- values_in_order fuel env es;
      ret (v :: vs)
  end.

(** [((x1 e1) ... (xn en))] *)
Definition let_bindings (bs : list (string * sexp)) : sexp :=
  SList ((λ b, SList [Symbol b.1; b.2]) <$> bs).

(** [(define x 1)] and [(let ((x 2) (y (+ x 0))) y)]: the second binding
    of the [let] is a call that reads [x]. *)
Definition define_x_1 : sexp := SList [Symbol "define"; Symbol "x"; int 1].

Definition let_reading_outer_x : sexp :=
  SList [Symbol "let";
         SList [SList [Symbol "x"; int 2];
                SList [Symbol "y"; SList [Symbol "+"; Symbol "x"; int 0]]];
         Symbol "y"].

(** [((lambda (a b) b) 1 2 3)] *)
Definition three_arguments_call : sexp :=
  SList [SList [Symbol "lambda"; SList [Symbol "a"; Symbol "b"]; Symbol "b"];
         int 1; int 2; int 3].

(** [(let ((y 5)) (+ y 1))]: a builtin called from a frame that is not
    the root, on an argument bound in that frame only. *)
Definition let_calling_builtin : sexp :=
  SList [Symbol "let"; SList [SList [Symbol "y"; int 5]];
         SList [Symbol "+"; Symbol "y"; int 1]].

(** ** Rounding *)







(** * Properties *)

(** ** Sequencing *)

Lemma bind_Return {S A B} (m : M S A) (k : A → M S B) st a st' :
  m st = (Return a, st') → bind m k st = k a st'.
Proof. intros Hm. unfold bind. by rewrite Hm. Qed.

Lemma bind_ext {S A B} (m : M S A) (k1 k2 : A → M S B) st :
  (∀ a st', k1 a st' = k2 a st') → bind m k1 st = bind m k2 st.
Proof. intros Hk. unfold bind. by destruct (m st) as [[] ?]. Qed.

(** * Invariants of the store *)

(** ** The extension order *)

Lemma ext_refl st : ext st st.
Proof.
  split; [done|]. exists []. rewrite app_nil_r. simpl. split_and!; [done..|lia].
Qed.

Lemma ext_trans st1 st2 st3 : ext st1 st2 → ext st2 st3 → ext st1 st3.
Proof.
  intros [He1 (n1 & Hc1 & Hi1 & Hk1)] [He2 (n2 & Hc2 & Hi2 & Hk2)]. split.
  - by etrans.
  - exists (n1 ++ n2). rewrite Hc2, Hc1, <-app_assoc, fmap_app, length_app.
    rewrite Hi1, Hi2, Hk1, Hk2, seq_app. split_and!; [done..|lia].
Qed.

Lemma ext_length st st' :
  ext st st' → length (envs (self st)) ≤ length (envs (self st')).
Proof.
  intros [He _]. apply prefix_length in He. by rewrite !length_fmap in He.
Qed.

Lemma ext_lookup st st' i e :
  ext st st' → envs (self st) !! i = Some e →
  ∃ e', envs (self st') !! i = Some e' ∧ skeleton e' = skeleton e.
Proof.
  intros [He _] Hi.
  assert ((skeleton <$> envs (self st)) !! i = Some (skeleton e)) as Hs
    by (by rewrite list_lookup_fmap, Hi).
  eapply prefix_lookup_Some in Hs; [|done].
  rewrite list_lookup_fmap in Hs.
  destruct (envs (self st') !! i) as [e'|]; simplify_eq/=.
  exists e'. unfold skeleton. split; congruence.
Qed.

Lemma ext_closure st st' c :
  ext st st' → c ∈ closures (self st) → c ∈ closures (self st').
Proof. intros [_ (n & -> & _)] ?. apply elem_of_app. by left. Qed.

Lemma mono_valid env : mono (valid env).
Proof. intros st st' Hext. unfold valid. apply ext_length in Hext. lia. Qed.

Lemma mono_value_ok v : mono (value_ok v).
Proof. intros st st' Hext. destruct v; simpl; eauto using ext_closure. Qed.

Lemma mono_and P Q : mono P → mono Q → mono (λ st, P st ∧ Q st).
Proof. intros HP HQ st st' Hext [??]. split; eauto. Qed.

Lemma mono_const (P : Prop) : mono (λ _, P).
Proof. by intros ???. Qed.

Create HintDb mono.
#[local] Hint Resolve mono_valid mono_value_ok mono_and mono_const : mono.

(** ** Rules *)

Lemma triple_ret {A} (P : state → Prop) (Q : A → state → Prop) a :
  (∀ st, P st → Q a st) → triple P (ret a) Q.
Proof. intros HQ st r st' Hwf HP [= <- <-]. eauto using ext_refl. Qed.

Lemma triple_raise {A} (P : state → Prop) (Q : A → state → Prop) e :
  triple P (raise e) Q.
Proof. intros st r st' Hwf HP [= <- <-]. eauto using ext_refl. Qed.

Lemma triple_out_of_fuel {A} (P : state → Prop) (Q : A → state → Prop) :
  triple P out_of_fuel Q.
Proof. intros st r st' Hwf HP [= <- <-]. eauto using ext_refl. Qed.

Lemma triple_lift {A} (P : state → Prop) (Q : A → state → Prop) o :
  o ≠ Dangling → (∀ a st, o = Return a → P st → Q a st) → triple P (lift o) Q.
Proof.
  intros Ho HQ st r st' Hwf HP [= <- <-].
  split_and!; [done|apply ext_refl|]. destruct o; eauto.
Qed.

Lemma triple_lift_safe {A} (o : outcome A) :
  o ≠ Dangling → triple (λ _, True) (lift o) (λ _ _, True).
Proof. intros. by apply triple_lift. Qed.

Lemma triple_weaken {A} (P P' : state → Prop) (Q Q' : A → state → Prop) m :
  (∀ st, P st → P' st) → (∀ a st, Q' a st → Q a st) →
  triple P' m Q' → triple P m Q.
Proof.
  intros HP HQ Hm st r st' Hwf Hpre Heq.
  destruct (Hm st r st' Hwf (HP _ Hpre) Heq) as (?&?&?).
  split_and!; [done..|]. destruct r; eauto.
Qed.

Lemma triple_pre {A} (P P' : state → Prop) (Q : A → state → Prop) m :
  (∀ st, P st → P' st) → triple P' m Q → triple P m Q.
Proof. intros HP. by apply triple_weaken. Qed.

Lemma triple_bind {A B} (P P0 : state → Prop) (Q : A → state → Prop)
    (R : B → state → Prop) m k :
  mono P → (∀ st, P st → P0 st) →
  triple P0 m Q →
  (∀ a, triple (λ st, P st ∧ Q a st) (k a) R) →
  triple P (bind m k) R.
Proof.
  intros Hmono HP Hm Hk st r st' Hwf Hpre. unfold bind.
  destruct (m st) as [r1 st1] eqn:Hm1.
  destruct (Hm st r1 st1 Hwf (HP _ Hpre) Hm1) as (Hwf1 & Hext1 & Hr1).
  destruct r1 as [a| | |]; try (intros [= <- <-]; done).
  intros Hk1.
  destruct (Hk a st1 r st' Hwf1 (conj (Hmono _ _ Hext1 Hpre) Hr1) Hk1)
    as (?&?&?).
  eauto using ext_trans.
Qed.

(** ** The operations of the store *)

Lemma value_ok_set_envs v l st : value_ok v (set_envs l st) ↔ value_ok v st.
Proof. by destruct v. Qed.

(** Rebinding a name in one frame keeps the store well formed. *)
Lemma define_in_wf st i e var val :
  wf st → envs (self st) !! i = Some e → value_ok val st →
  wf (set_envs (<[i := define_in var val e]> (envs (self st))) st) ∧
  ext st (set_envs (<[i := define_in var val e]> (envs (self st))) st).
Proof.
  intros [Hroot Hids Hpar Hbind Hclo] Hi Hval.
  pose proof (lookup_lt_Some _ _ _ Hi) as Hlt. split.
  - split; unfold valid in *; simpl; rewrite ?length_insert; try done.
    + intros j ej [(-> & <- & ?)|[? Hj]]%list_lookup_insert_Some; simpl; eauto.
    + intros j ej p [(-> & <- & ?)|[? Hj]]%list_lookup_insert_Some; simpl; eauto.
    + intros j ej x v [(-> & <- & ?)|[? Hj]]%list_lookup_insert_Some Hx;
        apply value_ok_set_envs; simpl in *; eauto.
      destruct (decide (var = x)) as [->|].
      * rewrite lookup_insert_eq in Hx. by simplify_eq.
      * rewrite lookup_insert_ne in Hx by done. eauto.
  - split; simpl.
    + rewrite list_fmap_insert. unfold skeleton at 2. simpl.
      rewrite list_insert_id; [done|]. by rewrite list_lookup_fmap, Hi.
    + exists []. rewrite app_nil_r. simpl. split_and!; [done..|lia].
Qed.

Lemma lookup_from_ok st fuel env var :
  wf st → valid env st →
  match lookup_from fuel (envs (self st)) env var with
  | Return v => value_ok v st
  | Dangling => False
  | _ => True
  end.
Proof.
  intros Hwf. revert env. induction fuel as [|fuel IH]; intros env Hv; [done|].
  simpl. apply lookup_lt_is_Some_2 in Hv as [e He]. rewrite He.
  destruct (bindings e !! var) as [v|] eqn:Hx.
  - eapply wf_bindings; eauto.
  - destruct (parent e) as [p|] eqn:Hp; [|done].
    apply IH. unfold valid. pose proof (wf_parent _ Hwf _ _ _ He Hp).
    apply lookup_lt_Some in He. lia.
Qed.

Lemma update_from_ok st fuel env var val :
  wf st → valid env st →
  match update_from fuel (envs (self st)) env var val with
  | Return l => ∃ a ea, envs (self st) !! a = Some ea ∧
                        l = <[a := define_in var val ea]> (envs (self st))
  | Dangling => False
  | _ => True
  end.
Proof.
  intros Hwf. revert env. induction fuel as [|fuel IH]; intros env Hv; [done|].
  simpl. apply lookup_lt_is_Some_2 in Hv as [e He]. rewrite He.
  destruct (bindings e !! var) as [v|] eqn:Hx; [by eauto|].
  destruct (parent e) as [p|] eqn:Hp; [|done].
  apply IH. unfold valid. pose proof (wf_parent _ Hwf _ _ _ He Hp).
  apply lookup_lt_Some in He. lia.
Qed.

Lemma triple_lookup env var : triple (valid env) (lookup env var) value_ok.
Proof.
  intros st r st' Hwf Hv [= <- <-]. split_and!; [done|apply ext_refl|].
  by apply lookup_from_ok.
Qed.

Lemma triple_define env var val :
  triple (λ st, valid env st ∧ value_ok val st) (define env var val) (λ _ _, True).
Proof.
  intros st r st' Hwf [Hv Hval]. unfold define.
  apply lookup_lt_is_Some_2 in Hv as [e He]. rewrite He. intros [= <- <-].
  destruct (define_in_wf st env e var val) as [??]; done.
Qed.

Lemma triple_update env var val :
  triple (λ st, valid env st ∧ value_ok val st) (update env var val) (λ _ _, True).
Proof.
  intros st r st' Hwf [Hv Hval]. unfold update.
  pose proof (update_from_ok st (length (envs (self st))) env var val Hwf Hv) as H.
  destruct (update_from _ _ _ _ _) as [l| | |]; intros [= <- <-];
    try (split_and!; [done|apply ext_refl|done]).
  destruct H as (a & ea & Ha & ->).
  destruct (define_in_wf st a ea var val) as [??]; done.
Qed.

Lemma triple_get_env_id env :
  triple (valid env) (get_env_id env) (λ i _, i = env).
Proof.
  intros st r st' Hwf Hv. unfold get_env_id.
  apply lookup_lt_is_Some_2 in Hv as [e He]. rewrite He. intros [= <- <-].
  split_and!; [done|apply ext_refl|]. eapply wf_ids; eauto.
Qed.

Lemma triple_envs_index i :
  triple (λ _, True) (envs_index i) (λ env st, env = i ∧ valid i st).
Proof.
  intros st r st' Hwf _. unfold envs_index.
  case_decide; intros [= <- <-]; split_and!; auto using ext_refl.
Qed.

Lemma new_env_wf st p :
  wf st → valid p st →
  wf (new_env p st).2 ∧ ext st (new_env p st).2.
Proof.
  intros [Hroot Hids Hpar Hbind Hclo] Hp. unfold valid in *. split.
  - split; unfold valid; simpl; rewrite ?length_app; simpl; try lia.
    + intros i e [[??]|[-> <-]]%lookup_snoc_Some; by eauto.
    + intros i e q [[??]|[-> <-]]%lookup_snoc_Some; [by eauto|].
      simpl. intros [= <-]. lia.
    + intros i e x v [[??]|[-> <-]]%lookup_snoc_Some Hx;
        apply value_ok_set_envs; [by eauto|done].
    + intros c Hc. specialize (Hclo c Hc). lia.
  - split; simpl.
    + rewrite fmap_app. by apply prefix_app_r.
    + exists []. rewrite app_nil_r. simpl. split_and!; [done..|lia].
Qed.

Lemma triple_new_env p :
  triple (valid p) (new_env p) (λ env st, valid env st).
Proof.
  intros st r st' Hwf Hp Heq.
  destruct (new_env_wf st p Hwf Hp) as [??].
  rewrite Heq in *. injection Heq as <- <-. split_and!; [done..|].
  unfold valid. simpl. rewrite length_app. simpl. lia.
Qed.

Lemma triple_new_closure ps b i :
  triple (valid i) (new_closure ps b i) (λ c st, value_ok (VClosure c) st).
Proof.
  intros st r st' [Hroot Hids Hpar Hbind Hclo] Hi [= <- <-].
  split_and!.
  - split; try done.
    + intros j e x v He Hx. specialize (Hbind j e x v He Hx).
      destruct v; try done. simpl in *. apply elem_of_app. by left.
    + intros c [?|Hc%list_elem_of_singleton]%elem_of_app; [by apply Hclo|].
      by subst c.
  - split; [done|]. simpl. eexists [_]. simpl. split_and!; [done..|lia].
  - simpl. apply elem_of_app. right. by apply list_elem_of_singleton.
Qed.

(** A fresh interpreter is well formed, whatever the counter. *)
Lemma wf_init c : wf (mkState c init).
Proof.
  split; unfold valid, global_env; simpl.
  - lia.
  - intros [|i] e He; by simplify_eq/=.
  - intros [|i] e p He; by simplify_eq/=.
  - intros [|i] e x v He; simplify_eq/=.
    repeat (intros [[_ <-]|[_ H]]%lookup_insert_Some; [done|revert H]).
    by rewrite lookup_empty.
  - by intros c' ?%elem_of_nil.
Qed.

(** ** The evaluator *)

(** One step through a [bind]: [lem] proves the triple of the first
    computation. *)
Ltac tstep lem :=
  eapply triple_bind; [ | | lem | ];
  [ solve [eauto 10 with mono]
  | solve [cbv beta; intros; intuition (subst; auto)]
  | intros ? ].

Lemma symbol_value_safe e : symbol_value e ≠ Dangling.
Proof. by destruct e. Qed.

Lemma iterate_safe e : iterate e ≠ Dangling.
Proof. by destruct e. Qed.

Lemma iterate_element_safe x : iterate_element x ≠ Dangling.
Proof. destruct x; [apply iterate_safe|done]. Qed.

Lemma unpack2_safe x : unpack2 x ≠ Dangling.
Proof.
  unfold unpack2. pose proof (iterate_element_safe x).
  destruct (iterate_element x); simpl; try done. by repeat case_match.
Qed.

Lemma element_value_safe x : element_value x ≠ Dangling.
Proof. destruct x; [apply symbol_value_safe|done]. Qed.

Lemma values_of_safe l : values_of l ≠ Dangling.
Proof.
  induction l as [|p l IH]; [done|]. simpl.
  pose proof (element_value_safe p).
  destruct (element_value p); try done. simpl. by destruct (values_of l).
Qed.

Lemma param_names_safe e : param_names e ≠ Dangling.
Proof. destruct e; try done; apply values_of_safe. Qed.

Lemma outcome_bind_safe {A B} (o : outcome A) (f : A → outcome B) :
  o ≠ Dangling → (∀ a, f a ≠ Dangling) → o ≫= f ≠ Dangling.
Proof. intros Ho Hf. destruct o; try done. apply Hf. Qed.

Lemma to_float_safe n : to_float n ≠ Dangling.
Proof. destruct n; [|done]. simpl. unfold int_to_float. by case_match. Qed.

Lemma arith_safe fz ff x y : arith fz ff x y ≠ Dangling.
Proof.
  unfold arith. destruct x, y; try done;
    (apply outcome_bind_safe; [apply to_float_safe|intros ?];
     apply outcome_bind_safe; [apply to_float_safe|done]).
Qed.

Lemma truediv_safe x y : truediv x y ≠ Dangling.
Proof.
  unfold truediv. destruct x, y; try (by repeat case_match);
    (apply outcome_bind_safe; [apply to_float_safe|intros ?];
     apply outcome_bind_safe; [apply to_float_safe|intros ?]; by case_match).
Qed.

Lemma binop_safe b x y : binop b x y ≠ Dangling.
Proof. destruct b; simpl; auto using arith_safe, truediv_safe. Qed.

Lemma call_builtin_safe b vs : call_builtin b vs ≠ Dangling.
Proof.
  unfold call_builtin. repeat (case_match; try done).
  apply outcome_bind_safe; [apply binop_safe|done].
Qed.

Lemma call_builtin_number b vs v : call_builtin b vs = Return v → ∃ n, v = VNum n.
Proof.
  unfold call_builtin. repeat (case_match; try done). simpl.
  destruct (binop b _ _); simpl; intros [= <-]; eauto.
Qed.

#[local] Hint Resolve unpack2_safe symbol_value_safe element_value_safe
  iterate_safe param_names_safe call_builtin_safe : core.

Section Loops.
  Variable ev : sexp → nat → M state value.
  Hypothesis Hev : ∀ e env, triple (valid env) (ev e env) value_ok.

Lemma triple_eval_each exprs env : ∀ result,
  triple (λ st, valid env st ∧ value_ok result st)
         (eval_each ev result exprs env) value_ok.
Proof.
  induction exprs as [|e exprs IH]; intros result; simpl.
  - apply triple_ret. tauto.
  - tstep ltac:(apply Hev).
    eapply triple_pre; [|apply IH]; cbv beta; intuition auto.
Qed.

Lemma triple_eval_element x env :
  triple (valid env) (eval_element ev x env) value_ok.
Proof. destruct x; [apply Hev|by apply triple_ret]. Qed.

Lemma triple_bind_let bl env let_env :
  triple (λ st, valid env st ∧ valid let_env st)
         (bind_let ev bl env let_env) (λ _ _, True).
Proof.
  induction bl as [|b bl IH]; simpl.
  - by apply triple_ret.
  - tstep ltac:(apply triple_lift_safe; auto).
    tstep ltac:(apply triple_eval_element).
    tstep ltac:(apply triple_lift_safe; auto).
    tstep ltac:(apply triple_define).
    eapply triple_pre; [|apply IH]; cbv beta; intuition auto.
Qed.

Lemma triple_eval_args args env :
  triple (valid env) (eval_args ev args env) (λ _ _, True).
Proof.
  induction args as [|a args IH]; simpl.
  - by apply triple_ret.
  - tstep ltac:(apply Hev).
    tstep ltac:(apply IH).
    by apply triple_ret.
Qed.

Lemma triple_bind_params ps : ∀ args env call_env,
  triple (λ st, valid env st ∧ valid call_env st)
         (bind_params ev ps args env call_env) (λ _ _, True).
Proof.
  induction ps as [|p ps IH]; intros [|a args] env call_env; simpl;
    try by apply triple_ret.
  tstep ltac:(apply Hev).
  tstep ltac:(apply triple_define).
  eapply triple_pre; [|apply IH]; cbv beta; intuition auto.
Qed.
End Loops.

(** Evaluation keeps the store well formed, only extends it, follows no
    dangling reference, and returns references to recorded closures only. *)
Lemma triple_eval_expr fuel : ∀ expr env,
  triple (valid env) (eval_expr fuel expr env) value_ok.
Proof.
  induction fuel as [|fuel IH]; intros expr env; [apply triple_out_of_fuel|].
  simpl. destruct expr as [n|s|[|op args]].
  - by apply triple_ret.
  - apply triple_lookup.
  - by apply triple_ret.
  - repeat case_match; subst; try apply triple_raise.
    + (* define *)
      tstep ltac:(apply IH).
      tstep ltac:(apply triple_lift_safe; auto).
      tstep ltac:(apply triple_define).
      apply triple_ret. intuition auto.
    + (* lambda *)
      tstep ltac:(apply triple_lift_safe; auto).
      tstep ltac:(apply triple_get_env_id).
      tstep ltac:(apply triple_new_closure).
      apply triple_ret. intuition auto.
    + (* begin *)
      eapply triple_pre; [|apply triple_eval_each; exact IH].
      cbv beta. by intuition auto.
    + (* let *)
      tstep ltac:(apply triple_new_env).
      tstep ltac:(apply triple_lift_safe; auto).
      tstep ltac:(apply triple_bind_let; exact IH).
      eapply triple_pre; [|apply triple_eval_each; exact IH].
      cbv beta. by intuition auto.
    + (* set! *)
      tstep ltac:(apply IH).
      tstep ltac:(apply triple_lift_safe; auto).
      tstep ltac:(apply triple_update).
      apply triple_ret. intuition auto.
    + (* function call *)
      tstep ltac:(apply IH).
      destruct a as [n|c|b|]; try apply triple_raise.
      * tstep ltac:(apply triple_envs_index).
        tstep ltac:(apply triple_new_env).
        tstep ltac:(apply triple_bind_params; exact IH).
        eapply triple_pre; [|apply IH]. cbv beta. intuition auto.
      * tstep ltac:(apply triple_eval_args; exact IH).
        apply triple_lift; [auto|]. intros v st Hv _.
        apply call_builtin_number in Hv as [n ->]. done.
Qed.

(** * The three variants *)

Section Sim.
  Context {S1 S2 : Type} (f : S2 → S1).

Lemma sim_ret {A} (a : A) : sim f (ret a) (ret a).
Proof. done. Qed.

Lemma sim_raise {A} e : sim f (raise (A := A) e) (raise e).
Proof. done. Qed.

Lemma sim_out_of_fuel {A} : sim f (out_of_fuel (A := A)) out_of_fuel.
Proof. done. Qed.

Lemma sim_lift {A} (o : outcome A) : sim f (lift o) (lift o).
Proof. done. Qed.

Lemma sim_bind {A B} (m2 : M S2 A) (m1 : M S1 A) (k2 : A → M S2 B) k1 :
  sim f m2 m1 → (∀ a, sim f (k2 a) (k1 a)) → sim f (bind m2 k2) (bind m1 k1).
Proof.
  intros Hm Hk st. unfold bind. rewrite <-Hm.
  destruct (m2 st) as [[a| | |] st']; simpl; try done. apply Hk.
Qed.
End Sim.

Create HintDb sim.
#[local] Hint Resolve sim_ret sim_raise sim_out_of_fuel sim_lift : sim.

Ltac sim_step := apply sim_bind; [ | intros ? ].

(** ** Grapher3.py against Grapher.py *)

Lemma erase_define_in var val e :
  erase_env (Grapher3.define_in var val e) = define_in var val (erase_env e).
Proof. done. Qed.

Lemma lookup_from_erase fuel l env var :
  Grapher3.lookup_from fuel l env var = lookup_from fuel (erase_env <$> l) env var.
Proof.
  revert env. induction fuel as [|fuel IH]; intros env; [done|]. simpl.
  rewrite list_lookup_fmap. destruct (l !! env) as [e|]; [|done]. simpl.
  destruct (Grapher3.bindings e !! var); [done|].
  destruct (Grapher3.parent e); [apply IH|done].
Qed.

Lemma update_from_erase fuel l env var val :
  fmap (M := list) erase_env <$> Grapher3.update_from fuel l env var val
  = update_from fuel (erase_env <$> l) env var val.
Proof.
  revert env. induction fuel as [|fuel IH]; intros env; [done|]. simpl.
  rewrite list_lookup_fmap. destruct (l !! env) as [e|]; [|done]. simpl.
  destruct (Grapher3.bindings e !! var).
  - simpl. by rewrite list_fmap_insert.
  - destruct (Grapher3.parent e); [apply IH|done].
Qed.

Lemma sim_lookup env var : sim erase (Grapher3.lookup env var) (lookup env var).
Proof.
  intros st. unfold Grapher3.lookup, lookup. simpl.
  by rewrite lookup_from_erase, length_fmap.
Qed.

Lemma sim_update env var val :
  sim erase (Grapher3.update env var val) (update env var val).
Proof.
  intros st. unfold Grapher3.update, update. simpl.
  rewrite <-update_from_erase, length_fmap.
  by destruct (Grapher3.update_from _ _ _ _ _).
Qed.

Lemma sim_define env var val :
  sim erase (Grapher3.define env var val) (define env var val).
Proof.
  intros st. unfold Grapher3.define, define. simpl.
  rewrite list_lookup_fmap.
  destruct (Grapher3.envs (Grapher3.self st) !! env) as [e|]; [|done]. simpl.
  unfold erase, set_envs. simpl. by rewrite list_fmap_insert.
Qed.

Lemma sim_get_env_id env :
  sim erase (Grapher3.get_env_id env) (get_env_id env).
Proof.
  intros st. unfold Grapher3.get_env_id, get_env_id. simpl.
  rewrite list_lookup_fmap.
  by destruct (Grapher3.envs (Grapher3.self st) !! env).
Qed.

Lemma sim_envs_index i : sim erase (Grapher3.envs_index i) (envs_index i).
Proof.
  intros st. unfold Grapher3.envs_index, envs_index. simpl.
  rewrite length_fmap. by case_decide.
Qed.

Lemma sim_new_env p : sim erase (Grapher3.new_env p) (new_env p).
Proof.
  intros st. unfold Grapher3.new_env, new_env, erase, set_envs. simpl.
  by rewrite fmap_app, length_fmap.
Qed.

Lemma sim_new_closure ps b i :
  sim erase (Grapher3.new_closure ps b i) (new_closure ps b i).
Proof. done. Qed.

#[local] Hint Resolve sim_lookup sim_update sim_define sim_get_env_id
  sim_envs_index sim_new_env sim_new_closure : sim.

Section Loops3.
  Variable ev3 : sexp → nat → M Grapher3.state value.
  Variable ev : sexp → nat → M state value.
  Hypothesis Hev : ∀ e env, sim erase (ev3 e env) (ev e env).

Lemma sim_eval_each exprs env : ∀ result,
  sim erase (Grapher3.eval_each ev3 result exprs env)
            (eval_each ev result exprs env).
Proof.
  induction exprs as [|e exprs IH]; intros result; simpl; auto with sim.
  sim_step; auto.
Qed.

Lemma sim_eval_element x env :
  sim erase (Grapher3.eval_element ev3 x env) (eval_element ev x env).
Proof. destruct x; [apply Hev|apply sim_ret]. Qed.

Lemma sim_bind_let bl env let_env :
  sim erase (Grapher3.bind_let ev3 bl env let_env) (bind_let ev bl env let_env).
Proof.
  induction bl as [|b bl IH]; simpl; auto with sim.
  repeat (sim_step; auto using sim_eval_element with sim).
Qed.

Lemma sim_eval_args args env :
  sim erase (Grapher3.eval_args ev3 args env) (eval_args ev args env).
Proof.
  induction args as [|a args IH]; simpl; auto with sim.
  repeat (sim_step; auto with sim).
Qed.

Lemma sim_bind_params ps : ∀ args env call_env,
  sim erase (Grapher3.bind_params ev3 ps args env call_env)
            (bind_params ev ps args env call_env).
Proof.
  induction ps as [|p ps IH]; intros [|a args] env call_env; simpl;
    auto with sim.
  repeat (sim_step; auto with sim).
Qed.
End Loops3.

Lemma sim_eval_expr fuel : ∀ expr env,
  sim erase (Grapher3.eval_expr fuel expr env) (eval_expr fuel expr env).
Proof.
  induction fuel as [|fuel IH]; intros expr env; [apply sim_out_of_fuel|].
  pose proof (sim_eval_each _ _ IH). pose proof (sim_bind_let _ _ IH).
  pose proof (sim_eval_args _ _ IH). pose proof (sim_bind_params _ _ IH).
  simpl. destruct expr as [n|s|[|op args]]; auto with sim.
  repeat case_match; subst; auto with sim;
    repeat (sim_step; auto with sim).
  match goal with |- sim _ (match ?v with _ => _ end) _ => destruct v end;
    auto with sim; repeat (sim_step; auto with sim).
Qed.

Lemma sim_run fuel exprs : sim erase (Grapher3.run fuel exprs) (run fuel exprs).
Proof.
  induction exprs as [|e exprs IH]; simpl; auto with sim.
  sim_step; auto using sim_eval_expr.
Qed.

(** * Name resolution *)

Lemma resolve_cases l var val fuel : ∀ env,
  (∀ i e p, l !! i = Some e → parent e = Some p → p < i) →
  env < length l → env < fuel →
  (∃ n a ea v, nearest l env var n a ∧ l !! a = Some ea ∧
     bindings ea !! var = Some v ∧
     lookup_from fuel l env var = Return v ∧
     update_from fuel l env var val = Return (<[a := define_in var val ea]> l))
  ∨ (unbound_everywhere l env var ∧
     lookup_from fuel l env var = Raise (NameError var) ∧
     update_from fuel l env var val = Raise (NameError var)).
Proof.
  intros env Hpar. revert env.
  induction fuel as [|fuel IH]; intros env Hlen Hfuel; [lia|].
  simpl. destruct (lookup_lt_is_Some_2 _ _ Hlen) as [e He]. rewrite He.
  destruct (bindings e !! var) as [v|] eqn:Hx.
  - left. exists 0, env, e, v. split_and!; try done.
    split_and!; [done|by rewrite He; simpl; rewrite Hx|intros; lia].
  - destruct (parent e) as [p|] eqn:Hp.
    + pose proof (Hpar _ _ _ He Hp) as Hlt.
      destruct (IH p) as [(n & a & ea & v & (Ha & Hb & Hmin) & Hea & Hv & Hl & Hu)
                         |(Hnone & Hl & Hu)]; [lia..| |].
      * left. exists (S n), a, ea, v. split_and!; try done.
        split_and!; [by simpl; rewrite He; simpl; rewrite Hp|done|].
        intros [|m] b Hm Hb'.
        -- injection Hb' as <-. intros e' He'. by simplify_eq.
        -- simpl in Hb'. rewrite He in Hb'. simpl in Hb'. rewrite Hp in Hb'.
           apply (Hmin m); [lia|done].
      * right. split_and!; try done. intros [|n] a Ha.
        -- injection Ha as <-. intros e' He'. by simplify_eq.
        -- simpl in Ha. rewrite He in Ha. simpl in Ha. rewrite Hp in Ha. eauto.
    + right. split_and!; try done. intros [|n] a Ha.
      * injection Ha as <-. intros e' He'. by simplify_eq.
      * simpl in Ha. rewrite He in Ha. simpl in Ha. by rewrite Hp in Ha.
Qed.

Lemma nearest_not_unbound l env var n a :
  nearest l env var n a → ¬ unbound_everywhere l env var.
Proof.
  intros (Ha & [v Hv] & _) Hnone. specialize (Hnone n a Ha).
  destruct (l !! a) as [e|] eqn:He; [|done]. simpl in Hv.
  by rewrite (Hnone e He) in Hv.
Qed.

Lemma nearest_unique l env var n a n' a' :
  nearest l env var n a → nearest l env var n' a' → n = n' ∧ a = a'.
Proof.
  intros (Ha & [v Hv] & Hmin) (Ha' & [v' Hv'] & Hmin').
  assert (n = n') as <-.
  { destruct (Nat.lt_trichotomy n n') as [Hlt|[?|Hlt]]; [|done|].
    - specialize (Hmin' n a Hlt Ha).
      destruct (l !! a) as [e|] eqn:He; [|done]. simpl in Hv.
      by rewrite (Hmin' e He) in Hv.
    - specialize (Hmin n' a' Hlt Ha').
      destruct (l !! a') as [e|] eqn:He; [|done]. simpl in Hv'.
      by rewrite (Hmin e He) in Hv'. }
  split; congruence.
Qed.

(** C3. In a well-formed store, [lookup] returns the nearest binding of
    the name on the walk from the frame through its parents, [update]
    rebinds the name in the frame that holds that nearest binding and
    changes nothing else, and each of them raises [NameError] for the name
    exactly when the frame and all of its ancestors leave the name unbound;
    one of the two cases always applies. *)
Theorem lookup_update_nearest_binding (st : state) (env : nat) (var : string)
    (val : value) :
  wf st → valid env st →
  let l := envs (self st) in
  (∀ v, lookup env var st = (Return v, st) ↔
        ∃ n a, nearest l env var n a ∧ binds l a var v) ∧
  (lookup env var st = (Raise (NameError var), st) ↔
     unbound_everywhere l env var) ∧
  (∀ st', update env var val st = (Return (), st') ↔
          ∃ n a ea, nearest l env var n a ∧ l !! a = Some ea ∧
                    st' = set_envs (<[a := define_in var val ea]> l) st) ∧
  (update env var val st = (Raise (NameError var), st) ↔
     unbound_everywhere l env var) ∧
  ((∃ n a, nearest l env var n a) ∨ unbound_everywhere l env var).
Proof.
  intros Hwf Hv l. unfold lookup, update. fold l.
  destruct (resolve_cases l var val (length l) env (wf_parent _ Hwf) Hv Hv)
    as [(n & a & ea & v & Hnear & Hea & Hx & -> & ->)|(Hnone & -> & ->)].
  - pose proof (nearest_not_unbound _ _ _ _ _ Hnear) as Hsome. split_and!.
    + intros v'. split.
      * intros [= <-]. exists n, a. split; [done|]. by exists ea.
      * intros (n' & a' & Hnear' & e' & He' & Hx').
        destruct (nearest_unique _ _ _ _ _ _ _ Hnear Hnear') as [<- <-].
        by simplify_eq.
    + split; [done|]. intros. by destruct Hsome.
    + intros st'. split.
      * intros [= <-]. by exists n, a, ea.
      * intros (n' & a' & e' & Hnear' & He' & ->).
        destruct (nearest_unique _ _ _ _ _ _ _ Hnear Hnear') as [<- <-].
        by simplify_eq.
    + split; [done|]. intros. by destruct Hsome.
    + left. eauto.
  - split_and!.
    + intros v. split; [done|]. intros (n & a & Hnear & _).
      by destruct (nearest_not_unbound _ _ _ _ _ Hnear).
    + done.
    + intros st'. split; [done|]. intros (n & a & ea & Hnear & _).
      by destruct (nearest_not_unbound _ _ _ _ _ Hnear).
    + done.
    + by right.
Qed.

Lemma lookup_update_nearest_binding_witness :
  let st := (new_env global_env (mkState 0 init)).2 in
  lookup 1 "+" st = (Return (VBuiltin Add), st) ↔
  ∃ n a, nearest (envs (self st)) 1 "+" n a ∧
         binds (envs (self st)) a "+" (VBuiltin Add).
Proof.
  intros st.
  refine (proj1 (lookup_update_nearest_binding st 1 "+" VNone _ _) (VBuiltin Add)).
  - apply new_env_wf; [apply wf_init|]. unfold valid, global_env. simpl. lia.
  - unfold valid. simpl. lia.
Defined.

(** * Programs *)

Lemma triple_run fuel exprs :
  triple (valid global_env) (run fuel exprs) (λ _ _, True).
Proof.
  induction exprs as [|e exprs IH]; simpl; [by apply triple_ret|].
  tstep ltac:(apply triple_eval_expr).
  eapply triple_pre; [|apply IH]. cbv beta. intuition auto.
Qed.

(** The function call of [eval_expr], reached when the head is none of
    the five keywords. *)
Lemma not_keyword op :
  is_keyword op = false →
  is_symbol "define" op = false ∧ is_symbol "lambda" op = false ∧
  is_symbol "begin" op = false ∧ is_symbol "let" op = false ∧
  is_symbol "set!" op = false.
Proof.
  unfold is_keyword, keywords. simpl. rewrite !orb_false_iff. tauto.
Qed.

Lemma eval_expr_call fuel op args env :
  is_keyword op = false →
  eval_expr (S fuel) (SList (op :: args)) env =
    do proc <- eval_expr fuel op env;
    match proc with
    | VBuiltin b =>
        do evaluated_args <- eval_args (eval_expr fuel) args env;
        lift (call_builtin b evaluated_args)
    | VClosure c =>
        do defining <- envs_index (def_env_id c);
        do call_env <- new_env defining;
        do_ bind_params (eval_expr fuel) (params c) args env call_env;
        eval_expr fuel (body c) call_env
    | _ => raise (NotCallable proc)
    end.
Proof.
  intros (H1 & H2 & H3 & H4 & H5)%not_keyword. simpl.
  by rewrite H1, H2, H3, H4, H5.
Qed.

(** A [lambda] with a list of symbols as parameters records one closure,
    defined in the frame of the evaluation. *)
Lemma eval_expr_lambda fuel params body_exprs env st ps :
  wf st → valid env st → param_names params = Return ps →
  let c := mkClosure (closure_counter st) ps (closure_body body_exprs) env in
  eval_expr (S fuel) (SList (Symbol "lambda" :: params :: body_exprs)) env st
  = (Return (VClosure c),
     mkState (S (closure_counter st))
       (mkInterpreter (envs (self st)) (closures (self st) ++ [c]))).
Proof.
  intros Hwf Hv Hps c. simpl.
  unfold bind, lift, get_env_id, new_closure, ret. rewrite Hps.
  destruct (lookup_lt_is_Some_2 _ _ Hv) as [e He]. rewrite He.
  by rewrite (wf_ids _ Hwf _ _ He).
Qed.

(** * Lexical scoping *)

(** C1. A [lambda] evaluated in a frame yields a closure whose defining
    frame is that frame.  Applying a closure creates the call frame under
    the next unused handle with the closure's defining frame as its parent
    (whatever the caller's frame is), binds the parameters and evaluates
    the body in it, and the frame keeps that parent until the call ends.
    After [(define x 1) (define f (lambda () x))], the form
    [(let ((x 2)) (f))] returns 1: the call frame 2 has the root as parent,
    not the frame 1 of the [let]. *)
Theorem call_frame_parent_is_defining_frame :
  (∀ fuel params body_exprs env st ps,
     wf st → valid env st → param_names params = Return ps →
     ∃ c, (eval_expr (S fuel) (SList (Symbol "lambda" :: params :: body_exprs))
             env st).1 = Return (VClosure c) ∧ def_env_id c = env) ∧
  (∀ fuel op args env st c st1 r st',
     wf st → valid env st → is_keyword op = false →
     eval_expr fuel op env st = (Return (VClosure c), st1) →
     eval_expr (S fuel) (SList (op :: args)) env st = (r, st') →
     let call_env := length (envs (self st1)) in
     let st2 := (new_env (def_env_id c) st1).2 in
     envs (self st2) =
       envs (self st1) ++ [mkEnvironment call_env (Some (def_env_id c)) ∅] ∧
     (do_ bind_params (eval_expr fuel) (params c) args env call_env;
      eval_expr fuel (body c) call_env) st2 = (r, st') ∧
     ∃ e, envs (self st') !! call_env = Some e ∧
          env_id e = call_env ∧ parent e = Some (def_env_id c)) ∧
  (∀ k c,
     let st := (run (2 + k) scoping_definitions (mkState c init)).2 in
     ∃ st', eval_expr (3 + k) scoping_call global_env st
              = (Return (VNum (PyInt 1)), st') ∧
            skeleton <$> envs (self st') = [(0, None); (1, Some 0); (2, Some 0)]).
Proof.
  split_and!.
  - intros fuel params body_exprs env st ps Hwf Hv Hps. eexists.
    by rewrite (eval_expr_lambda _ _ _ _ _ _ Hwf Hv Hps).
  - intros fuel op args env st c st1 r st' Hwf Hv Hop Heval1 Heval.
    destruct (triple_eval_expr fuel op env st _ _ Hwf Hv Heval1)
      as (Hwf1 & Hext1 & Hc). simpl in Hc.
    pose proof (wf_closures _ Hwf1 _ Hc) as Hdef.
    rewrite (eval_expr_call _ _ _ _ Hop) in Heval.
    unfold bind at 1 in Heval. rewrite Heval1 in Heval.
    unfold bind at 1, envs_index in Heval.
    rewrite decide_True in Heval by done.
    unfold bind at 1 in Heval.
    destruct (new_env_wf st1 (def_env_id c) Hwf1 Hdef) as [Hwf2 Hext2].
    split_and!; [done|exact Heval|].
    assert (valid env (new_env (def_env_id c) st1).2 ∧
            valid (length (envs (self st1))) (new_env (def_env_id c) st1).2)
      as Hpre.
    { split; [by eapply mono_valid, mono_valid; eauto|].
      unfold valid. simpl. rewrite length_app. simpl. lia. }
    assert (triple (λ st, valid env st ∧ valid (length (envs (self st1))) st)
              (do_ bind_params (eval_expr fuel) (params c) args env
                     (length (envs (self st1)));
               eval_expr fuel (body c) (length (envs (self st1))))
              value_ok) as Hrest.
    { tstep ltac:(apply triple_bind_params; apply triple_eval_expr).
      eapply triple_pre; [|apply triple_eval_expr]. cbv beta. intuition auto. }
    destruct (Hrest _ _ _ Hwf2 Hpre Heval) as (Hwf' & Hext' & _).
    destruct (ext_lookup _ _ (length (envs (self st1)))
                (mkEnvironment (length (envs (self st1))) (Some (def_env_id c)) ∅)
                Hext') as (e & He & Hskel).
    { simpl. by rewrite lookup_app_r, Nat.sub_diag. }
    exists e. injection Hskel as ??. done.
  - intros k c. eexists. split; vm_compute; reflexivity.
Qed.

Lemma call_frame_parent_is_defining_frame_witness :
  let st := mkState 0 init in
  let op := SList [Symbol "lambda"; SList []; int 1] in
  ∃ e, envs (self (eval_expr 3 (SList [op]) global_env st).2) !! 1 = Some e ∧
       env_id e = 1 ∧ parent e = Some 0.
Proof.
  intros st op.
  refine (proj2 (proj2 (proj1 (proj2 call_frame_parent_is_defining_frame)
    2 op [] global_env st (mkClosure 0 [] (int 1) 0)
    (eval_expr 2 op global_env st).2 _ _ (wf_init 0) _ _ _ _))).
  - unfold valid, global_env. simpl. lia.
  - reflexivity.
  - vm_compute. reflexivity.
  - vm_compute. reflexivity.
Defined.

(** * [let] and [set!] *)

(** A walk from a frame of [l] stays in [l], whatever was appended and
    whatever fuel is left beyond the handle of the frame. *)
Lemma lookup_from_app l l' var :
  (∀ i e p, l !! i = Some e → parent e = Some p → p < i) →
  ∀ fuel fuel' env, env < length l → env < fuel → env < fuel' →
  lookup_from fuel' (l ++ l') env var = lookup_from fuel l env var.
Proof.
  intros Hpar. induction fuel as [|fuel IH]; intros [|fuel'] env Hlen ??; try lia.
  simpl. rewrite lookup_app_l by done.
  destruct (l !! env) as [e|] eqn:He; [|done].
  destruct (bindings e !! var); [done|].
  destruct (parent e) as [p|] eqn:Hp; [|done].
  pose proof (Hpar _ _ _ He Hp). apply IH; lia.
Qed.

(** The binding loop of [let] over atoms: the values come from the outer
    frame of the store as it was, and go to the new frame only. *)
Lemma bind_let_cons ev x e rest env let_env st :
  bind_let ev (Elem (SList [Symbol x; e]) :: rest) env let_env st
  = (do val <- ev e env;
     do_ define let_env x val;
     bind_let ev rest env let_env) st.
Proof. reflexivity. Qed.

Lemma bind_let_atoms fuel l env c cl :
  (∀ i e p, l !! i = Some e → parent e = Some p → p < i) →
  env < length l →
  ∀ bs vs m,
    Forall2 (λ b v, atom_value l env b.2 = Return v) bs vs →
    bind_let (eval_expr (S fuel))
      (Elem <$> ((λ b, SList [Symbol b.1; atom_expr b.2]) <$> bs)) env (length l)
      (mkState c (mkInterpreter (l ++ [mkEnvironment (length l) (Some env) m]) cl))
    = (Return (),
       mkState c (mkInterpreter
         (l ++ [mkEnvironment (length l) (Some env) (define_all m bs.*1 vs)]) cl)).
Proof.
  intros Hpar Henv bs vs m Hvs. revert m.
  induction Hvs as [|[x a] v bs vs Hv _ IH]; intros m; [done|].
  simpl in Hv. rewrite !fmap_cons. cbn [fst snd]. rewrite bind_let_cons.
  set (f := mkEnvironment (length l) (Some env) m).
  set (st := mkState c (mkInterpreter (l ++ [f]) cl)).
  assert (eval_expr (S fuel) (atom_expr a) env st = (Return v, st)) as Heval.
  { destruct a as [n|s]; cbn [atom_expr atom_value] in *;
      [by injection Hv as <-|].
    change (eval_expr (S fuel) (Symbol s) env st) with (lookup env s st).
    unfold lookup, st. cbn [envs self].
    by rewrite (lookup_from_app l [f] s Hpar (length l)), Hv
      by (rewrite ?length_app; simpl; lia). }
  assert (define (length l) x v st
          = (Return (), mkState c (mkInterpreter (l ++ [define_in x v f]) cl)))
    as Hdefine.
  { unfold define, set_envs. simpl. rewrite lookup_app_r, Nat.sub_diag by done.
    simpl. by rewrite insert_app_r_alt, Nat.sub_diag by done. }
  rewrite (bind_Return _ _ _ _ _ Heval), (bind_Return _ _ _ _ _ Hdefine).
  apply IH.
Qed.

(** A [let] over atoms: the new frame gets the values the atoms have in
    the outer frame before the [let], no other frame changes, and the body
    runs in the new frame. *)
Lemma eval_expr_let_atoms fuel (bs : list (string * atom)) vs body_exprs env st :
  wf st → valid env st →
  Forall2 (λ b v, atom_value (envs (self st)) env b.2 = Return v) bs vs →
  let let_env := length (envs (self st)) in
  eval_expr (S (S fuel)) (SList (Symbol "let" :: binding_forms bs :: body_exprs))
    env st
  = eval_each (eval_expr (S fuel)) VNone body_exprs let_env
      (set_envs (envs (self st) ++
                 [mkEnvironment let_env (Some env) (define_all ∅ bs.*1 vs)]) st).
Proof.
  destruct st as [c [l cl]]. intros Hwf Hv Hvs let_env.
  change (eval_expr (S (S fuel)) _ env _) with
    ((do_ bind_let (eval_expr (S fuel))
            (Elem <$> ((λ b, SList [Symbol b.1; atom_expr b.2]) <$> bs))
            env let_env;
      eval_each (eval_expr (S fuel)) VNone body_exprs let_env)
       (mkState c (mkInterpreter (l ++ [mkEnvironment let_env (Some env) ∅]) cl))).
  by rewrite (bind_Return _ _ _ _ _
    (bind_let_atoms fuel l env c cl (wf_parent _ Hwf) Hv bs vs ∅ Hvs)).
Qed.

(** The binding loop of [let] over any binding expressions, and the whole
    form: the frame is created first, under the frame of the [let]. *)
Lemma bind_let_install fuel env let_env (bs : list (string * sexp)) st :
  bind_let (eval_expr fuel) (Elem <$> ((λ b, SList [Symbol b.1; b.2]) <$> bs))
    env let_env st
  = install_in_order fuel env let_env bs st.
Proof.
  revert st. induction bs as [|[x e] bs IH]; intros st; [done|].
  rewrite !fmap_cons. cbn [fst snd]. rewrite bind_let_cons.
  cbn [install_in_order]. apply bind_ext. intros v st1.
  apply bind_ext. intros [] st2. apply IH.
Qed.

Lemma eval_expr_let_install fuel (bs : list (string * sexp)) body_exprs env st :
  let let_env := length (envs (self st)) in
  eval_expr (S fuel) (SList (Symbol "let" :: let_bindings bs :: body_exprs)) env st
  = (do_ install_in_order fuel env let_env bs;
     eval_each (eval_expr fuel) VNone body_exprs let_env)
      (set_envs (envs (self st) ++ [mkEnvironment let_env (Some env) ∅]) st).
Proof.
  intros let_env.
  change (eval_expr (S fuel) _ env st) with
    ((do_ bind_let (eval_expr fuel)
            (Elem <$> ((λ b, SList [Symbol b.1; b.2]) <$> bs)) env let_env;
      eval_each (eval_expr fuel) VNone body_exprs let_env)
       (set_envs (envs (self st) ++ [mkEnvironment let_env (Some env) ∅]) st)).
  unfold bind. by rewrite bind_let_install.
Qed.

(** C2. In a fresh interpreter [(let ((x 1) (y 2)) (set! x y) x)] returns
    2 and leaves two frames: the root, whose bindings are still exactly the
    builtins (no [x], no [y]), and the frame of the [let], child of the
    root, where [x] and [y] are both 2.  In general [(set! var e)] first
    evaluates [e] and then either rebinds [var] in the frame that holds its
    nearest binding, every other frame keeping its bindings, and returns
    the value, or raises [NameError] and changes nothing more.  A [let]
    whose binding expressions are numbers and symbols takes their values
    from the outer frame of the store as it was before the [let] (it sees
    none of the bindings of the [let]), changes no existing frame, and
    evaluates its body in a new child of the outer frame that holds exactly
    these bindings.  Whatever the binding expressions are, a [let] first
    appends the new frame, empty, as a child of the frame it is evaluated
    in, then takes the bindings in order, evaluating each expression in
    the frame of the [let] itself and installing the value in the new
    frame, then evaluates its body in the new frame; so after
    [(define x 1)] the form [(let ((x 2) (y (+ x 0))) y)] returns 1: the
    call [(+ x 0)] reads the outer [x]. *)
Theorem let_binds_in_child_set_mutates_owner :
  (∀ k c, ∃ m,
     eval_expr (3 + k) let_set_example global_env (mkState c init)
     = (Return (VNum (PyInt 2)),
        mkState c (mkInterpreter
          [mkEnvironment 0 None builtins; mkEnvironment 1 (Some 0) m] [])) ∧
     builtins !! "x" = None ∧ builtins !! "y" = None ∧
     m !! "x" = Some (VNum (PyInt 2)) ∧ m !! "y" = Some (VNum (PyInt 2))) ∧
  (∀ fuel var e env st v st1,
     wf st → valid env st →
     eval_expr fuel e env st = (Return v, st1) →
     let l := envs (self st1) in
     let result := eval_expr (S fuel) (SList [Symbol "set!"; Symbol var; e]) env st in
     (∃ n a ea, nearest l env var n a ∧ l !! a = Some ea ∧
        result.1 = Return v ∧
        closures (self result.2) = closures (self st1) ∧
        length (envs (self result.2)) = length l ∧
        envs (self result.2) !! a = Some (define_in var v ea) ∧
        ∀ i, i ≠ a → envs (self result.2) !! i = l !! i)
     ∨ (unbound_everywhere l env var ∧ result = (Raise (NameError var), st1))) ∧
  (∀ fuel (bs : list (string * atom)) vs body_exprs env st,
     wf st → valid env st →
     Forall2 (λ b v, atom_value (envs (self st)) env b.2 = Return v) bs vs →
     let let_env := length (envs (self st)) in
     eval_expr (S (S fuel)) (SList (Symbol "let" :: binding_forms bs :: body_exprs))
       env st
     = eval_each (eval_expr (S fuel)) VNone body_exprs let_env
         (set_envs (envs (self st) ++
                    [mkEnvironment let_env (Some env) (define_all ∅ bs.*1 vs)]) st)) ∧
  (∀ fuel (bs : list (string * sexp)) body_exprs env st,
     let let_env := length (envs (self st)) in
     eval_expr (S fuel) (SList (Symbol "let" :: let_bindings bs :: body_exprs)) env st
     = (do_ install_in_order fuel env let_env bs;
        eval_each (eval_expr fuel) VNone body_exprs let_env)
         (set_envs (envs (self st) ++ [mkEnvironment let_env (Some env) ∅]) st)) ∧
  (∀ k c,
     (run (3 + k) [define_x_1; let_reading_outer_x] (mkState c init)).1 = Return () ∧
     (eval_expr (3 + k) let_reading_outer_x global_env
        (run (3 + k) [define_x_1] (mkState c init)).2).1
     = Return (VNum (PyInt 1))).
Proof.
  split_and!; [| | |apply eval_expr_let_install|by intros k c; vm_compute].
  - intros k c. eexists. split; [vm_compute; reflexivity|].
    split_and!; vm_compute; reflexivity.
  - intros fuel var e env st v st1 Hwf Hv Heval l result.
    destruct (triple_eval_expr fuel e env st _ _ Hwf Hv Heval)
      as (Hwf1 & Hext1 & _).
    assert (valid env st1) as Hv1 by (by eapply mono_valid).
    assert (result = (do_ update env var v; ret v) st1) as ->.
    { unfold result. simpl. unfold bind at 1. by rewrite Heval. }
    unfold bind, update. fold l.
    destruct (resolve_cases l var v (length l) env (wf_parent _ Hwf1) Hv1 Hv1)
      as [(n & a & ea & w & Hnear & Hea & Hx & _ & ->)|(Hnone & _ & ->)].
    + left. exists n, a, ea. simpl. split_and!; try done.
      * by rewrite length_insert.
      * apply list_lookup_insert_eq. by eapply lookup_lt_Some.
      * intros i Hi. by apply list_lookup_insert_ne.
    + by right.
  - intros fuel bs vs body_exprs env st Hwf Hv Hvs.
    by apply eval_expr_let_atoms.
Qed.

Lemma let_binds_in_child_set_mutates_owner_witness :
  let st := mkState 0 init in
  let result := eval_expr 2 (SList [Symbol "set!"; Symbol "+"; int 1]) global_env st in
  (∃ n a ea, nearest (envs (self st)) global_env "+" n a ∧
     envs (self st) !! a = Some ea ∧
     result.1 = Return (VNum (PyInt 1)) ∧
     closures (self result.2) = closures (self st) ∧
     length (envs (self result.2)) = length (envs (self st)) ∧
     envs (self result.2) !! a = Some (define_in "+" (VNum (PyInt 1)) ea) ∧
     ∀ i, i ≠ a → envs (self result.2) !! i = envs (self st) !! i)
  ∨ (unbound_everywhere (envs (self st)) global_env "+" ∧
     result = (Raise (NameError "+"), st)).
Proof.
  intros st result.
  refine (proj1 (proj2 let_binds_in_child_set_mutates_owner)
            1 "+" (int 1) global_env st (VNum (PyInt 1)) st (wf_init 0) _ _).
  - unfold valid, global_env. simpl. lia.
  - reflexivity.
Defined.

(** * Calling what is not a procedure *)

(** C4. When the head of a list is none of the five keywords and
    evaluates to a value that is neither a builtin nor a closure, the
    evaluation raises the [TypeError] for a non-callable carrying that
    value, the arguments being left unevaluated; [(1 2 3)] raises it for 1
    in every frame and state. *)
Theorem non_procedure_not_callable :
  (∀ fuel op args env st v st1,
     is_keyword op = false →
     eval_expr fuel op env st = (Return v, st1) →
     (∀ b, v ≠ VBuiltin b) → (∀ c, v ≠ VClosure c) →
     eval_expr (S fuel) (SList (op :: args)) env st
     = (Raise (NotCallable v), st1)) ∧
  (∀ k env st,
     eval_expr (2 + k) (SList [int 1; int 2; int 3]) env st
     = (Raise (NotCallable (VNum (PyInt 1))), st)).
Proof.
  split.
  - intros fuel op args env st v st1 Hop Heval Hb Hc.
    rewrite (eval_expr_call _ _ _ _ Hop). unfold bind. rewrite Heval.
    destruct v; try done; [by destruct (Hc c)|by destruct (Hb b)].
  - done.
Qed.

Lemma non_procedure_not_callable_witness :
  eval_expr 2 (SList [SList []; int 1]) global_env (mkState 0 init)
  = (Raise (NotCallable VNone), mkState 0 init).
Proof.
  refine (proj1 non_procedure_not_callable 1 (SList []) [int 1] global_env
            (mkState 0 init) VNone (mkState 0 init) _ _ _ _); done.
Defined.

(** * Growth of the store *)

(** C5. [new_env] never fails: it appends one frame with an empty binding
    table under the handle [len(self.envs)] and returns that handle; the
    root of a fresh interpreter has handle 0.  Any evaluation from a
    well-formed state keeps every frame at its position with its id and
    parent, keeps ids equal to positions, and keeps every recorded closure
    in place.  A well-formed [lambda] only appends one closure; a [let]
    and the call of a closure first append exactly one frame and then
    evaluate their parts, so the store has at least one frame more
    afterwards, and exactly one more after a [let] that binds numbers and
    symbols and has no body. *)
Theorem store_append_only :
  (∀ p st,
     new_env p st
     = (Return (length (envs (self st))),
        set_envs (envs (self st) ++
                  [mkEnvironment (length (envs (self st))) (Some p) ∅]) st)) ∧
  (∀ c, envs (self (mkState c init)) = [mkEnvironment 0 None builtins]) ∧
  (∀ fuel expr env st r st',
     wf st → valid env st → eval_expr fuel expr env st = (r, st') →
     wf st' ∧
     length (envs (self st)) ≤ length (envs (self st')) ∧
     (∀ i e, envs (self st) !! i = Some e →
        ∃ e', envs (self st') !! i = Some e' ∧
              env_id e' = env_id e ∧ parent e' = parent e) ∧
     (∀ i e', envs (self st') !! i = Some e' → env_id e' = i) ∧
     closures (self st) `prefix_of` closures (self st')) ∧
  (∀ fuel params body_exprs env st ps,
     wf st → valid env st → param_names params = Return ps →
     let c := mkClosure (closure_counter st) ps (closure_body body_exprs) env in
     eval_expr (S fuel) (SList (Symbol "lambda" :: params :: body_exprs)) env st
     = (Return (VClosure c),
        mkState (S (closure_counter st))
          (mkInterpreter (envs (self st)) (closures (self st) ++ [c])))) ∧
  (∀ fuel binding_list body_exprs env st r st',
     wf st → valid env st →
     eval_expr (S fuel) (SList (Symbol "let" :: binding_list :: body_exprs)) env st
       = (r, st') →
     let let_env := length (envs (self st)) in
     (do bl <- lift (iterate binding_list);
      do_ bind_let (eval_expr fuel) bl env let_env;
      eval_each (eval_expr fuel) VNone body_exprs let_env)
       (set_envs (envs (self st) ++ [mkEnvironment let_env (Some env) ∅]) st)
       = (r, st') ∧
     S (length (envs (self st))) ≤ length (envs (self st'))) ∧
  (∀ fuel op args env st c st1 r st',
     wf st → valid env st → is_keyword op = false →
     eval_expr fuel op env st = (Return (VClosure c), st1) →
     eval_expr (S fuel) (SList (op :: args)) env st = (r, st') →
     let call_env := length (envs (self st1)) in
     (do_ bind_params (eval_expr fuel) (params c) args env call_env;
      eval_expr fuel (body c) call_env)
       (set_envs (envs (self st1) ++
                  [mkEnvironment call_env (Some (def_env_id c)) ∅]) st1)
       = (r, st') ∧
     S (length (envs (self st1))) ≤ length (envs (self st'))) ∧
  (∀ fuel (bs : list (string * atom)) vs env st,
     wf st → valid env st →
     Forall2 (λ b v, atom_value (envs (self st)) env b.2 = Return v) bs vs →
     let result := eval_expr (S (S fuel))
                     (SList [Symbol "let"; binding_forms bs]) env st in
     result.1 = Return VNone ∧
     length (envs (self result.2)) = S (length (envs (self st))) ∧
     closures (self result.2) = closures (self st)).
Proof.
  split_and!; cycle -1.
  { intros fuel bs vs env st Hwf Hv Hvs result. unfold result.
    rewrite (eval_expr_let_atoms fuel bs vs [] env st Hwf Hv Hvs). simpl.
    split_and!; [done| |done]. rewrite length_app. simpl. lia. }
  - done.
  - done.
  - intros fuel expr env st r st' Hwf Hv Heval.
    destruct (triple_eval_expr fuel expr env st _ _ Hwf Hv Heval)
      as (Hwf' & Hext & _).
    split_and!; [done|by apply ext_length| |by apply wf_ids|].
    + intros i e He. destruct (ext_lookup _ _ _ _ Hext He) as (e' & ? & Hs).
      exists e'. injection Hs as ??. done.
    + destruct Hext as [_ (new & -> & _)]. by apply prefix_app_r.
  - intros fuel params body_exprs env st ps Hwf Hv Hps.
    by apply eval_expr_lambda.
  - intros fuel binding_list body_exprs env st r st' Hwf Hv Heval let_env.
    split; [exact Heval|].
    destruct (triple_eval_expr _ _ _ _ _ _ Hwf Hv Heval) as (_ & Hext & _).
    apply ext_length in Hext. revert Heval. simpl. unfold bind at 1. simpl.
    intros Heval.
    destruct (new_env_wf st env Hwf Hv) as [Hwf2 Hext2].
    assert (triple (λ st, valid env st ∧ valid let_env st)
              (do bl <- lift (iterate binding_list);
               do_ bind_let (eval_expr fuel) bl env let_env;
               eval_each (eval_expr fuel) VNone body_exprs let_env)
              value_ok) as Hrest.
    { tstep ltac:(apply triple_lift_safe; auto).
      tstep ltac:(apply triple_bind_let; apply triple_eval_expr).
      eapply triple_pre; [|apply triple_eval_each; apply triple_eval_expr].
      cbv beta. by intuition auto. }
    assert (valid env (new_env env st).2 ∧ valid let_env (new_env env st).2)
      as Hpre.
    { unfold valid in *. simpl. rewrite length_app. simpl.
      unfold let_env. lia. }
    destruct (Hrest _ _ _ Hwf2 Hpre Heval) as (_ & Hext' & _).
    apply ext_length in Hext'. simpl in Hext'.
    rewrite length_app in Hext'. simpl in Hext'. lia.
  - intros fuel op args env st c st1 r st' Hwf Hv Hop Heval1 Heval call_env.
    destruct (triple_eval_expr fuel op env st _ _ Hwf Hv Heval1)
      as (Hwf1 & Hext1 & Hc). simpl in Hc.
    pose proof (wf_closures _ Hwf1 _ Hc) as Hdef.
    rewrite (eval_expr_call _ _ _ _ Hop) in Heval.
    unfold bind at 1 in Heval. rewrite Heval1 in Heval.
    unfold bind at 1, envs_index in Heval.
    rewrite decide_True in Heval by done.
    unfold bind at 1 in Heval. simpl in Heval. split; [exact Heval|].
    destruct (new_env_wf st1 (def_env_id c) Hwf1 Hdef) as [Hwf2 Hext2].
    assert (triple (λ st, valid env st ∧ valid call_env st)
              (do_ bind_params (eval_expr fuel) (params c) args env call_env;
               eval_expr fuel (body c) call_env)
              value_ok) as Hrest.
    { tstep ltac:(apply triple_bind_params; apply triple_eval_expr).
      eapply triple_pre; [|apply triple_eval_expr]. cbv beta. intuition auto. }
    assert (valid env (new_env (def_env_id c) st1).2 ∧
            valid call_env (new_env (def_env_id c) st1).2) as Hpre.
    { apply ext_length in Hext1. unfold valid in *. simpl.
      rewrite length_app. simpl. unfold call_env. lia. }
    destruct (Hrest _ _ _ Hwf2 Hpre Heval) as (_ & Hext' & _).
    apply ext_length in Hext'. simpl in Hext'.
    rewrite length_app in Hext'. simpl in Hext'. lia.
Qed.

Lemma store_append_only_witness :
  let st := mkState 0 init in
  let st' := (eval_expr 3 let_set_example global_env st).2 in
  wf st' ∧
  length (envs (self st)) ≤ length (envs (self st')) ∧
  (∀ i e, envs (self st) !! i = Some e →
     ∃ e', envs (self st') !! i = Some e' ∧
           env_id e' = env_id e ∧ parent e' = parent e) ∧
  (∀ i e', envs (self st') !! i = Some e' → env_id e' = i) ∧
  closures (self st) `prefix_of` closures (self st').
Proof.
  intros st st'.
  refine (proj1 (proj2 (proj2 store_append_only))
            3 let_set_example global_env st
            (eval_expr 3 let_set_example global_env st).1 st' (wf_init 0) _ _).
  - unfold valid, global_env. simpl. lia.
  - vm_compute. reflexivity.
Defined.

(** * Arity of a closure call *)

Lemma bind_params_take ev ps : ∀ args env call_env st,
  bind_params ev ps args env call_env st
  = bind_params ev ps (take (length ps) args) env call_env st.
Proof.
  induction ps as [|p ps IH]; intros [|a args] env call_env st; simpl; try done.
  unfold bind. destruct (ev a env st) as [[v| | |] st1]; try done.
  destruct (define call_env p v st1) as [[[]| | |] st2]; first [done|apply IH].
Qed.

Lemma bind_params_take_params ev ps : ∀ args env call_env st,
  bind_params ev ps args env call_env st
  = bind_params ev (take (length args) ps) args env call_env st.
Proof.
  induction ps as [|p ps IH]; intros [|a args] env call_env st; simpl; try done.
  unfold bind. destruct (ev a env st) as [[v| | |] st1]; try done.
  destruct (define call_env p v st1) as [[[]| | |] st2]; first [done|apply IH].
Qed.

(** The binding loop of a closure call takes the pairs of [zip] in order,
    and the whole call: the call frame is created first, under the
    defining frame. *)
Lemma bind_params_install fuel ps : ∀ args env call_env st,
  bind_params (eval_expr fuel) ps args env call_env st
  = install_in_order fuel env call_env (zip ps args) st.
Proof.
  induction ps as [|p ps IH]; intros [|a args] env call_env st; try done.
  cbn [bind_params zip zip_with install_in_order].
  apply bind_ext. intros v st1. apply bind_ext. intros [] st2. apply IH.
Qed.

Lemma eval_expr_call_install fuel op args env st c st1 :
  is_keyword op = false →
  eval_expr fuel op env st = (Return (VClosure c), st1) →
  valid (def_env_id c) st1 →
  let call_env := length (envs (self st1)) in
  eval_expr (S fuel) (SList (op :: args)) env st
  = (do_ install_in_order fuel env call_env (zip (params c) args);
     eval_expr fuel (body c) call_env)
      (set_envs (envs (self st1) ++
                 [mkEnvironment call_env (Some (def_env_id c)) ∅]) st1).
Proof.
  intros Hop Heval Hv call_env.
  rewrite (eval_expr_call _ _ _ _ Hop), (bind_Return _ _ _ _ _ Heval).
  unfold bind at 1, envs_index. rewrite decide_True by done.
  unfold bind at 1, new_env. fold call_env.
  unfold bind. by rewrite bind_params_install.
Qed.

(** C6, as stated, fails: the extra argument [z] of [((lambda () 1) z)] is
    not evaluated.  The call returns 1 in a fresh interpreter, where
    evaluating [z] raises [NameError]; the loop of the code binds nothing
    and succeeds, the loop that evaluates every argument raises. *)
Lemma extra_argument_not_evaluated :
  let st := mkState 0 init in
  (eval_expr 3 extra_argument_call global_env st).1 = Return (VNum (PyInt 1)) ∧
  (eval_expr 3 (Symbol "z") global_env st).1 = Raise (NameError "z") ∧
  (bind_params (eval_expr 2) [] [Symbol "z"] global_env 1 st).1 = Return () ∧
  (bind_params_evaluating_all (eval_expr 2) [] [Symbol "z"] global_env 1 st).1
    = Raise (NameError "z").
Proof. split_and!; vm_compute; reflexivity. Qed.

(** C6, amended. A closure call pairs parameters with argument
    expressions by position up to the shorter of the two sequences and
    evaluates, in the caller's frame, only the paired argument expressions:
    argument expressions beyond the parameters are not evaluated at all and
    do not influence the call, parameters beyond the arguments stay unbound
    in the call frame, and the mismatch itself raises nothing.
    [((lambda (a b) a) 1)] returns 1 with only [a] bound in the call
    frame, [((lambda (a b) b) 1)] raises [NameError] for [b].  In full: once
    the operator has given a closure whose defining frame exists, the call
    appends the call frame, empty, as a child of the defining frame, then
    takes the pairs of [zip] of the parameters and the argument
    expressions in order, evaluating each expression in the frame of the
    caller and installing the value under the parameter in the call frame,
    then evaluates the body in the call frame; so
    [((lambda (a b) b) 1 2 3)] returns 2 and never looks at the 3. *)
Theorem closure_call_truncates_pairing :
  (∀ ev ps args env call_env st,
     bind_params ev ps args env call_env st
     = bind_params ev (take (length args) ps) (take (length ps) args)
         env call_env st) ∧
  (∀ fuel op args env st c st1,
     is_keyword op = false →
     eval_expr fuel op env st = (Return (VClosure c), st1) →
     eval_expr (S fuel) (SList (op :: args)) env st
     = eval_expr (S fuel) (SList (op :: take (length (params c)) args)) env st) ∧
  (∀ k c,
     (eval_expr (3 + k) extra_argument_call global_env (mkState c init)).1
     = Return (VNum (PyInt 1))) ∧
  (∀ k c,
     eval_expr (3 + k) (missing_argument_call "a") global_env (mkState c init)
     = (Return (VNum (PyInt 1)),
        mkState (S c) (mkInterpreter
          [mkEnvironment 0 None builtins;
           mkEnvironment 1 (Some 0) {["a" := VNum (PyInt 1)]}]
          [mkClosure c ["a"; "b"] (Symbol "a") 0]))) ∧
  (∀ k c,
     (eval_expr (3 + k) (missing_argument_call "b") global_env (mkState c init)).1
     = Raise (NameError "b")) ∧
  (∀ fuel op args env st c st1,
     is_keyword op = false →
     eval_expr fuel op env st = (Return (VClosure c), st1) →
     valid (def_env_id c) st1 →
     let call_env := length (envs (self st1)) in
     eval_expr (S fuel) (SList (op :: args)) env st
     = (do_ install_in_order fuel env call_env (zip (params c) args);
        eval_expr fuel (body c) call_env)
         (set_envs (envs (self st1) ++
                    [mkEnvironment call_env (Some (def_env_id c)) ∅]) st1)) ∧
  (∀ k c,
     eval_expr (3 + k) three_arguments_call global_env (mkState c init)
     = (Return (VNum (PyInt 2)),
        mkState (S c) (mkInterpreter
          [mkEnvironment 0 None builtins;
           mkEnvironment 1 (Some 0)
             {["a" := VNum (PyInt 1); "b" := VNum (PyInt 2)]}]
          [mkClosure c ["a"; "b"] (Symbol "b") 0]))).
Proof.
  split_and!; [| | | | |apply eval_expr_call_install|by intros k c; vm_compute].
  - intros ev ps args env call_env st.
    rewrite bind_params_take, bind_params_take_params.
    rewrite length_take.
    destruct (Nat.le_gt_cases (length args) (length ps)).
    + by rewrite Nat.min_r.
    + rewrite Nat.min_l by lia. by rewrite !(take_ge ps) by lia.
  - intros fuel op args env st c st1 Hop Heval.
    rewrite !(eval_expr_call _ _ _ _ Hop), !(bind_Return _ _ _ _ _ Heval).
    apply bind_ext. intros d st2. apply bind_ext. intros h st3.
    unfold bind. by rewrite bind_params_take.
  - intros k c. vm_compute. reflexivity.
  - intros k c. vm_compute. reflexivity.
  - intros k c. vm_compute. reflexivity.
Qed.

Lemma closure_call_truncates_pairing_witness :
  let op := SList [Symbol "lambda"; SList []; int 1] in
  let st := mkState 0 init in
  eval_expr 3 (SList [op; Symbol "z"; Symbol "w"]) global_env st
  = eval_expr 3 (SList [op]) global_env st.
Proof.
  intros op st.
  refine (proj1 (proj2 closure_call_truncates_pairing)
            2 op [Symbol "z"; Symbol "w"] global_env st
            (mkClosure 0 [] (int 1) 0) (eval_expr 2 op global_env st).2 _ _).
  - reflexivity.
  - vm_compute. reflexivity.
Defined.

(** * The values of the evaluator *)

(** C7, as stated, fails: the empty list evaluates to [None], and
    [(define x ())] stores [None] in the root frame. *)
Lemma none_is_a_value :
  let st := mkState 0 init in
  (eval_expr 1 (SList []) global_env st).1 = Return VNone ∧
  (envs (self (eval_expr 2 (SList [Symbol "define"; Symbol "x"; SList []])
                 global_env st).2) !! 0) ≫= (λ e, bindings e !! "x")
    = Some VNone ∧
  ¬ three_variants VNone.
Proof.
  split_and!; [done|vm_compute; reflexivity|].
  intros [[? [=]]|[[? [=]]|[? [=]]]].
Qed.

(** C7, amended. Every value returned by an evaluation from a
    well-formed state, and every value then stored in a binding table, is
    one of four variants: a number, a reference to a closure recorded in
    the registry whose defining frame exists, a builtin procedure, or
    [None]; and each of the four is the result of some evaluation. *)
Theorem values_are_four_variants :
  (∀ fuel expr env st r st',
     wf st → valid env st → eval_expr fuel expr env st = (r, st') →
     (∀ v, r = Return v → four_variants st' v) ∧
     (∀ i e x v, envs (self st') !! i = Some e → bindings e !! x = Some v →
                 four_variants st' v)) ∧
  (let st := mkState 0 init in
   (eval_expr 1 (int 1) global_env st).1 = Return (VNum (PyInt 1)) ∧
   (eval_expr 1 (SList [Symbol "lambda"; SList []]) global_env st).1
     = Return (VClosure (mkClosure 0 [] (SList [Symbol "begin"]) 0)) ∧
   (eval_expr 1 (Symbol "+") global_env st).1 = Return (VBuiltin Add) ∧
   (eval_expr 1 (SList []) global_env st).1 = Return VNone).
Proof.
  assert (∀ st v, wf st → value_ok v st → four_variants st v) as Hfour.
  { intros st [n|c|b|] Hwf Hok; unfold four_variants; eauto 6.
    right. left. exists c. split_and!; [done..|]. by apply wf_closures. }
  split.
  - intros fuel expr env st r st' Hwf Hv Heval.
    destruct (triple_eval_expr fuel expr env st _ _ Hwf Hv Heval)
      as (Hwf' & _ & Hr).
    split.
    + intros v ->. by apply Hfour.
    + intros i e x v He Hx. apply Hfour; [done|]. by eapply wf_bindings.
  - split_and!; vm_compute; reflexivity.
Qed.

Lemma values_are_four_variants_witness :
  let st := mkState 0 init in
  let result := eval_expr 2 (SList [Symbol "define"; Symbol "x"; SList []])
                  global_env st in
  (∀ v, result.1 = Return v → four_variants result.2 v) ∧
  (∀ i e x v, envs (self result.2) !! i = Some e → bindings e !! x = Some v →
              four_variants result.2 v).
Proof.
  intros st result.
  refine (proj1 values_are_four_variants
            2 (SList [Symbol "define"; Symbol "x"; SList []]) global_env st
            result.1 result.2 (wf_init 0) _ _).
  - unfold valid, global_env. simpl. lia.
  - unfold result. by destruct (eval_expr _ _ _ _).
Defined.

(** * Rounding to the nearest [float] *)

Section Rounding.
Local Open Scope Z_scope.

Lemma iter_pos_nat {A} (f : A → A) p x :
  SpecFloat.iter_pos f p x = Nat.iter (Pos.to_nat p) f x.
Proof.
  revert x. induction p as [p IH|p IH|]; intros x; cbn [SpecFloat.iter_pos]; [| |done].
  - rewrite !IH, Pos2Nat.inj_xI.
    rewrite <-Nat.iter_succ_r, <-Nat.iter_add. f_equal. lia.
  - rewrite !IH, Pos2Nat.inj_xO, <-Nat.iter_add. f_equal. lia.
Qed.




























End Rounding.

(** * Division *)



(** * The three variants agree *)

(** ** The flag of Grapher3.py *)

Lemma preserves_bind {S A B} (P : S → Prop) (m : M S A) (k : A → M S B) :
  preserves P m → (∀ a, preserves P (k a)) → preserves P (bind m k).
Proof.
  intros Hm Hk st HP. unfold bind. specialize (Hm st HP).
  destruct (m st) as [[a| | |] st']; try done. by apply Hk.
Qed.

Lemma preserves_state {S A} (P : S → Prop) (m : M S A) :
  (∀ st, (m st).2 = st) → preserves P m.
Proof. intros Hm st HP. by rewrite Hm. Qed.

Lemma flags_ok_insert st a ea var val :
  flags_ok st → Grapher3.envs (Grapher3.self st) !! a = Some ea →
  flags_ok (Grapher3.set_envs
              (<[a := Grapher3.define_in var val ea]> (Grapher3.envs (Grapher3.self st)))
              st).
Proof.
  intros [Hlen Hflag] Ha. split; simpl; [by rewrite length_insert|].
  intros i e [(-> & <- & _)|[_ ?]]%list_lookup_insert_Some; simpl; eauto.
Qed.

Lemma update_from_insert fuel l var val : ∀ env l',
  Grapher3.update_from fuel l env var val = Return l' →
  ∃ a ea, l !! a = Some ea ∧ l' = <[a := Grapher3.define_in var val ea]> l.
Proof.
  induction fuel as [|fuel IH]; intros env l'; [done|]. simpl.
  destruct (l !! env) as [e|] eqn:He; [|done].
  destruct (Grapher3.bindings e !! var).
  - intros [= <-]. eauto.
  - destruct (Grapher3.parent e); [apply IH|done].
Qed.

Lemma flags_ok_update env var val :
  preserves flags_ok (Grapher3.update env var val).
Proof.
  intros st Hst. unfold Grapher3.update.
  destruct (Grapher3.update_from _ _ _ _ _) as [l'| | |] eqn:Hu; try done.
  apply update_from_insert in Hu as (a & ea & Ha & ->). by apply flags_ok_insert.
Qed.

Lemma flags_ok_define env var val :
  preserves flags_ok (Grapher3.define env var val).
Proof.
  intros st Hst. unfold Grapher3.define.
  destruct (Grapher3.envs (Grapher3.self st) !! env) as [e|] eqn:He; [|done].
  by apply flags_ok_insert.
Qed.

Lemma flags_ok_new_env p : preserves flags_ok (Grapher3.new_env p).
Proof.
  intros st [Hlen Hflag]. split; simpl; [rewrite length_app; lia|].
  intros i e [[_ ?]|[-> <-]]%lookup_snoc_Some; simpl; [by eauto|].
  symmetry. apply bool_decide_eq_false. lia.
Qed.

Lemma flags_ok_new_closure ps b i :
  preserves flags_ok (Grapher3.new_closure ps b i).
Proof. by intros st Hst. Qed.

Create HintDb flags.
#[local] Hint Resolve flags_ok_update flags_ok_define flags_ok_new_env
  flags_ok_new_closure : flags.
#[local] Hint Extern 1 (preserves _ (ret _)) => by apply preserves_state : flags.
#[local] Hint Extern 1 (preserves _ (raise _)) => by apply preserves_state : flags.
#[local] Hint Extern 1 (preserves _ (lift _)) => by apply preserves_state : flags.
#[local] Hint Extern 1 (preserves _ out_of_fuel) => by apply preserves_state : flags.
#[local] Hint Extern 1 (preserves _ (Grapher3.lookup _ _)) =>
  by apply preserves_state : flags.
#[local] Hint Extern 1 (preserves _ (Grapher3.get_env_id _)) =>
  apply preserves_state; intros ?; unfold Grapher3.get_env_id;
  by case_match : flags.
#[local] Hint Extern 1 (preserves _ (Grapher3.envs_index _)) =>
  apply preserves_state; intros ?; unfold Grapher3.envs_index;
  by case_decide : flags.

Ltac flags_step := apply preserves_bind; [ | intros ? ].

Section Flags.
Variable ev : sexp → nat → M Grapher3.state value.
Hypothesis Hev : ∀ e env, preserves flags_ok (ev e env).

Lemma flags_ok_eval_each exprs env : ∀ result,
  preserves flags_ok (Grapher3.eval_each ev result exprs env).
Proof.
  induction exprs as [|e exprs IH]; intros result; simpl; auto with flags.
  flags_step; auto.
Qed.

Lemma flags_ok_eval_element x env :
  preserves flags_ok (Grapher3.eval_element ev x env).
Proof. destruct x; simpl; auto with flags. Qed.

Lemma flags_ok_bind_let bl env let_env :
  preserves flags_ok (Grapher3.bind_let ev bl env let_env).
Proof.
  induction bl as [|b bl IH]; simpl; auto with flags.
  repeat (flags_step; auto using flags_ok_eval_element with flags).
Qed.

Lemma flags_ok_eval_args args env :
  preserves flags_ok (Grapher3.eval_args ev args env).
Proof.
  induction args as [|a args IH]; simpl; auto with flags.
  repeat (flags_step; auto with flags).
Qed.

Lemma flags_ok_bind_params ps : ∀ args env call_env,
  preserves flags_ok (Grapher3.bind_params ev ps args env call_env).
Proof.
  induction ps as [|p ps IH]; intros [|a args] env call_env; simpl;
    auto with flags.
  repeat (flags_step; auto with flags).
Qed.
End Flags.

Lemma flags_ok_eval_expr fuel : ∀ expr env,
  preserves flags_ok (Grapher3.eval_expr fuel expr env).
Proof.
  induction fuel as [|fuel IH]; intros expr env; [by apply preserves_state|].
  pose proof (flags_ok_eval_each _ IH). pose proof (flags_ok_bind_let _ IH).
  pose proof (flags_ok_eval_args _ IH). pose proof (flags_ok_bind_params _ IH).
  simpl. destruct expr as [n|s|[|op args]]; auto with flags.
  repeat case_match; subst; auto with flags;
    repeat (flags_step; auto with flags).
  match goal with |- preserves _ (match ?v with _ => _ end) => destruct v end;
    auto with flags; repeat (flags_step; auto with flags).
Qed.

Lemma flags_ok_run fuel exprs : preserves flags_ok (Grapher3.run fuel exprs).
Proof.
  induction exprs as [|e exprs IH]; simpl; auto with flags.
  flags_step; auto using flags_ok_eval_expr.
Qed.

Lemma flags_ok_init c : flags_ok (Grapher3.mkState c Grapher3.init).
Proof.
  split; simpl; [lia|]. intros [|i] e He; by simplify_eq/=.
Qed.

(** C8. The evaluators of the three files compute the same function.
    [eval_expr] and [run] of Grapher2.py return, for every fuel, expression,
    frame and state, the outcome and state that those of Grapher.py return.
    Grapher3.py keeps one more attribute in a frame, [is_global], that only
    its renderer reads: a fresh interpreter of Grapher3.py is a fresh
    interpreter of Grapher.py once the flag is dropped, and from
    corresponding states [eval_expr] and [run] of Grapher3.py return the
    same value or exception and leave corresponding states, that is, the
    same frames up to the flag and the same closures.  The flag carries
    nothing more than the handle: after any run in a fresh interpreter it
    is set on frame 0 and on no other frame. *)
Theorem variants_agree :
  (Grapher2.init = Grapher.init ∧
   ∀ fuel expr env st,
     Grapher2.eval_expr fuel expr env st = Grapher.eval_expr fuel expr env st) ∧
  (∀ fuel exprs st, Grapher2.run fuel exprs st = Grapher.run fuel exprs st) ∧
  (∀ c, erase (Grapher3.mkState c Grapher3.init) = Grapher.mkState c Grapher.init) ∧
  (∀ fuel expr env st,
     ((Grapher3.eval_expr fuel expr env st).1,
      erase (Grapher3.eval_expr fuel expr env st).2)
     = Grapher.eval_expr fuel expr env (erase st)) ∧
  (∀ fuel exprs st,
     ((Grapher3.run fuel exprs st).1, erase (Grapher3.run fuel exprs st).2)
     = Grapher.run fuel exprs (erase st)) ∧
  (∀ fuel exprs c i e,
     Grapher3.envs (Grapher3.self
       (Grapher3.run fuel exprs (Grapher3.mkState c Grapher3.init)).2) !! i
       = Some e →
     Grapher3.is_global e = bool_decide (i = 0)).
Proof.
  split_and!.
  - reflexivity.
  - reflexivity.
  - reflexivity.
  - reflexivity.
  - intros. apply sim_eval_expr.
  - intros. apply sim_run.
  - intros fuel exprs c. apply flags_ok_run, flags_ok_init.
Qed.

Lemma variants_agree_witness :
  Grapher3.is_global (Grapher3.mkEnvironment 0 None true builtins)
  = bool_decide (0 = 0).
Proof.
  refine (proj2 (proj2 (proj2 (proj2 (proj2 variants_agree))))
            0 [] 0 0 (Grapher3.mkEnvironment 0 None true builtins) _).
  reflexivity.
Defined.

(** * Closure ids across interpreter instances *)

Section Shift.
  Variable d : nat.

Lemma shifted_ret {A} (g : A → A) a : shifted d g (ret (g a)) (ret a).
Proof. done. Qed.

Lemma shifted_raise {A} (g : A → A) e :
  shifted d g (raise (shift_exn d e)) (raise e).
Proof. done. Qed.

Lemma shifted_out_of_fuel {A} (g : A → A) : shifted d g out_of_fuel out_of_fuel.
Proof. done. Qed.

Lemma shifted_bind {A B} (g : A → A) (h : B → B) m2 m1 k2 k1 :
  shifted d g m2 m1 → (∀ a, shifted d h (k2 (g a)) (k1 a)) →
  shifted d h (bind m2 k2) (bind m1 k1).
Proof.
  intros Hm Hk st. unfold bind. rewrite Hm.
  destruct (m1 st) as [[a| | |] st']; simpl; try done. apply Hk.
Qed.

Lemma shifted_lift {A} (o : outcome A) :
  plain o → shifted d id (lift o) (lift o).
Proof.
  intros Ho st. unfold lift. simpl. f_equal.
  destruct o as [a|e| |]; try done. destruct e; try done. by destruct (Ho proc).
Qed.

Lemma plain_symbol_value e : plain (symbol_value e).
Proof. by destruct e. Qed.

Lemma plain_iterate e : plain (iterate e).
Proof. by destruct e. Qed.

Lemma plain_iterate_element x : plain (iterate_element x).
Proof. destruct x; [apply plain_iterate|done]. Qed.

Lemma plain_unpack2 x : plain (unpack2 x).
Proof.
  intros v. unfold unpack2. pose proof (plain_iterate_element x v) as H.
  destruct (iterate_element x) as [l|e| |]; simpl; try done.
  - by repeat case_match.
  - by intros [= ->].
Qed.

Lemma plain_element_value x : plain (element_value x).
Proof. destruct x; [apply plain_symbol_value|done]. Qed.

Lemma plain_values_of l : plain (values_of l).
Proof.
  induction l as [|p l IH]; [done|]. intros v. simpl.
  pose proof (plain_element_value p v) as H.
  destruct (element_value p) as [x|e| |]; simpl; try done.
  - specialize (IH v). by destruct (values_of l) as [?|[]| |].
  - by intros [= ->].
Qed.

Lemma plain_param_names e : plain (param_names e).
Proof. destruct e; try done; apply plain_values_of. Qed.

Lemma shift_define_in var val e :
  shift_env d (define_in var val e) = define_in var (shift_value d val) (shift_env d e).
Proof. unfold shift_env, define_in. simpl. by rewrite fmap_insert. Qed.

Lemma shift_lookup_from fuel l env var :
  lookup_from fuel (shift_env d <$> l) env var
  = shift_outcome d (shift_value d) (lookup_from fuel l env var).
Proof.
  revert env. induction fuel as [|fuel IH]; intros env; [done|]. simpl.
  rewrite list_lookup_fmap. destruct (l !! env) as [e|]; [|done]. simpl.
  rewrite lookup_fmap. destruct (bindings e !! var); [done|]. simpl.
  destruct (parent e); [apply IH|done].
Qed.

Lemma shift_update_from fuel l env var val :
  update_from fuel (shift_env d <$> l) env var (shift_value d val)
  = shift_outcome d (fmap (shift_env d)) (update_from fuel l env var val).
Proof.
  revert env. induction fuel as [|fuel IH]; intros env; [done|]. simpl.
  rewrite list_lookup_fmap. destruct (l !! env) as [e|]; [|done]. simpl.
  rewrite lookup_fmap. destruct (bindings e !! var); simpl.
  - by rewrite list_fmap_insert, shift_define_in.
  - destruct (parent e); [apply IH|done].
Qed.

Lemma shifted_lookup env var :
  shifted d (shift_value d) (lookup env var) (lookup env var).
Proof.
  intros st. unfold lookup. simpl. by rewrite length_fmap, shift_lookup_from.
Qed.

Lemma shifted_update env var val :
  shifted d id (update env var (shift_value d val)) (update env var val).
Proof.
  intros st. unfold update. simpl. rewrite length_fmap, shift_update_from.
  by destruct (update_from _ _ _ _ _).
Qed.

Lemma shifted_define env var val :
  shifted d id (define env var (shift_value d val)) (define env var val).
Proof.
  intros st. unfold define. simpl. rewrite list_lookup_fmap.
  destruct (envs (self st) !! env) as [e|]; [|done]. simpl.
  unfold shift, set_envs. simpl. by rewrite list_fmap_insert, shift_define_in.
Qed.

Lemma shifted_get_env_id env : shifted d id (get_env_id env) (get_env_id env).
Proof.
  intros st. unfold get_env_id. simpl. rewrite list_lookup_fmap.
  by destruct (envs (self st) !! env).
Qed.

Lemma shifted_envs_index i : shifted d id (envs_index i) (envs_index i).
Proof.
  intros st. unfold envs_index. simpl. rewrite length_fmap. by case_decide.
Qed.

Lemma shifted_new_env p : shifted d id (new_env p) (new_env p).
Proof.
  intros st. unfold new_env, shift, set_envs. simpl.
  rewrite length_fmap, fmap_app. simpl. unfold shift_env at 3. simpl.
  by rewrite fmap_empty.
Qed.

Lemma shifted_new_closure ps b i :
  shifted d (shift_closure d) (new_closure ps b i) (new_closure ps b i).
Proof.
  intros st. unfold new_closure, shift. simpl.
  by rewrite fmap_app, Nat.add_succ_r.
Qed.

Lemma shifted_call_builtin b vs :
  shifted d (shift_value d) (lift (call_builtin b (shift_value d <$> vs)))
            (lift (call_builtin b vs)).
Proof.
  intros st. unfold lift. simpl. f_equal.
  destruct vs as [|[x| | |] [|[y| | |] [|??]]]; try done. simpl.
  destruct (binop b x y) as [?|[]| |] eqn:Hb; try done.
  exfalso. revert Hb. clear. destruct b; simpl; unfold arith, truediv, to_float, int_to_float;
    repeat (case_match; simpl; try done).
Qed.
End Shift.

Section ShiftEval.
  Variable d : nat.

Ltac shift_step lem :=
  eapply shifted_bind; [ lem | intros ? ].

Ltac shift_pure lem :=
  apply (shifted_bind d id) with (k2 := _) (k1 := _);
  [ apply shifted_lift, lem | intros ? ].

Section Loops.
  Variable ev : sexp → nat → M state value.
  Hypothesis Hev : ∀ e env, shifted d (shift_value d) (ev e env) (ev e env).

Lemma shifted_eval_each exprs env : ∀ result,
  shifted d (shift_value d) (eval_each ev (shift_value d result) exprs env)
            (eval_each ev result exprs env).
Proof.
  induction exprs as [|e exprs IH]; intros result; simpl.
  - by intros ?.
  - shift_step ltac:(apply Hev). apply IH.
Qed.

Lemma shifted_eval_element x env :
  shifted d (shift_value d) (eval_element ev x env) (eval_element ev x env).
Proof. destruct x; [apply Hev|by intros ?]. Qed.

Lemma shifted_bind_let bl env let_env :
  shifted d id (bind_let ev bl env let_env) (bind_let ev bl env let_env).
Proof.
  induction bl as [|b bl IH]; simpl.
  - by intros ?.
  - shift_pure plain_unpack2.
    shift_step ltac:(apply shifted_eval_element).
    shift_pure plain_element_value.
    shift_step ltac:(apply shifted_define).
    apply IH.
Qed.

Lemma shifted_eval_args args env :
  shifted d (fmap (shift_value d)) (eval_args ev args env) (eval_args ev args env).
Proof.
  induction args as [|a args IH]; simpl.
  - by intros ?.
  - shift_step ltac:(apply Hev).
    shift_step ltac:(apply IH).
    by intros ?.
Qed.

Lemma shifted_bind_params ps : ∀ args env call_env,
  shifted d id (bind_params ev ps args env call_env)
            (bind_params ev ps args env call_env).
Proof.
  induction ps as [|p ps IH]; intros [|a args] env call_env; simpl;
    try (by intros ?).
  shift_step ltac:(apply Hev).
  shift_step ltac:(apply shifted_define).
  apply IH.
Qed.
End Loops.

(** Evaluation does not depend on the value of the counter: from a state
    numbered [d] higher it does the same, numbered [d] higher. *)
Lemma shifted_eval_expr fuel : ∀ expr env,
  shifted d (shift_value d) (eval_expr fuel expr env) (eval_expr fuel expr env).
Proof.
  induction fuel as [|fuel IH]; intros expr env; [apply shifted_out_of_fuel|].
  simpl. destruct expr as [n|s|[|op args]].
  - by intros ?.
  - apply shifted_lookup.
  - by intros ?.
  - repeat case_match; subst;
      try by intros ?.
    + shift_step ltac:(apply IH).
      shift_pure plain_symbol_value.
      shift_step ltac:(apply shifted_define).
      by intros ?.
    + shift_pure plain_param_names.
      shift_step ltac:(apply shifted_get_env_id).
      shift_step ltac:(apply shifted_new_closure).
      by intros ?.
    + apply (shifted_eval_each _ IH _ _ VNone).
    + shift_step ltac:(apply shifted_new_env).
      shift_pure plain_iterate.
      shift_step ltac:(apply shifted_bind_let, IH).
      apply (shifted_eval_each _ IH _ _ VNone).
    + shift_step ltac:(apply IH).
      shift_pure plain_symbol_value.
      shift_step ltac:(apply shifted_update).
      by intros ?.
    + shift_step ltac:(apply IH).
      destruct a as [n|c|b|]; simpl.
      * by intros ?.
      * shift_step ltac:(apply shifted_envs_index).
        shift_step ltac:(apply shifted_new_env).
        shift_step ltac:(apply shifted_bind_params, IH).
        apply IH.
      * shift_step ltac:(apply shifted_eval_args, IH).
        apply shifted_call_builtin.
      * by intros ?.
Qed.

Lemma shifted_run fuel exprs : shifted d id (run fuel exprs) (run fuel exprs).
Proof.
  induction exprs as [|e exprs IH]; simpl; [by intros ?|].
  shift_step ltac:(apply shifted_eval_expr). apply IH.
Qed.

Lemma shift_init c : shift d (mkState c init) = mkState (d + c) init.
Proof.
  unfold shift, init, shift_env, define_in. simpl.
  by rewrite !fmap_insert, fmap_empty.
Qed.
End ShiftEval.

(** C9. Run a program in a fresh interpreter while the global counter is
    [c], and then again in a second fresh interpreter of the same process.
    The first run numbers its [n] closures [c], ..., [c + n - 1] and leaves
    the counter at [c + n]; the second run ends the same way and records
    the same closures except that their ids are [n] higher, so no id of the
    second run is an id of the first.  The frames of both runs have the
    same ids and parents, ids equal to positions, the root being frame 0.
    With [(define f (lambda () 1))] and the counter at 0, the closure gets
    id 0 in the first interpreter and id 1 in the second. *)
Theorem closure_ids_global_frame_ids_per_instance :
  (∀ fuel exprs c,
     let run1 := run fuel exprs (mkState c init) in
     let n := length (closures (self run1.2)) in
     let run2 := run fuel exprs (mkState (closure_counter run1.2) init) in
     closure_counter run1.2 = c + n ∧
     closure_id <$> closures (self run1.2) = seq c n ∧
     run2.1 = shift_outcome n id run1.1 ∧
     closures (self run2.2) = shift_closure n <$> closures (self run1.2) ∧
     closure_id <$> closures (self run2.2) = seq (c + n) n ∧
     (∀ c1 c2, c1 ∈ closures (self run1.2) → c2 ∈ closures (self run2.2) →
               closure_id c1 < closure_id c2) ∧
     skeleton <$> envs (self run2.2) = skeleton <$> envs (self run1.2) ∧
     env_id <$> envs (self run1.2) = seq 0 (length (envs (self run1.2))) ∧
     skeleton <$> (envs (self run1.2) !! 0) = Some (0, None)) ∧
  (let run1 := run 2 one_closure_program (mkState 0 init) in
   let run2 := run 2 one_closure_program (mkState (closure_counter run1.2) init) in
   closure_id <$> closures (self run1.2) = [0] ∧
   closure_id <$> closures (self run2.2) = [1] ∧
   env_id <$> envs (self run1.2) = [0] ∧
   env_id <$> envs (self run2.2) = [0]).
Proof.
  split; [|by vm_compute].
  intros fuel exprs c run1 n run2.
  destruct (triple_run fuel exprs (mkState c init) run1.1 run1.2 (wf_init c))
    as (Hwf1 & [Henvs (new & Hnew & Hids & Hcounter)] & _).
  { apply (wf_root _ (wf_init c)). }
  { exact (surjective_pairing run1). }
  simpl in Hnew, Hids, Hcounter.
  assert (length new = n) as Hn by (unfold n; by rewrite Hnew).
  rewrite Hn in Hids, Hcounter. rewrite <-Hnew in Hids.
  assert (run2 = (shift_outcome n id run1.1, shift n run1.2)) as Hrun2.
  { unfold run2. rewrite Hcounter, (Nat.add_comm c n), <-shift_init.
    apply shifted_run. }
  assert (closure_id <$> closures (self run2.2) = seq (c + n) n) as Hids2.
  { rewrite Hrun2. simpl. rewrite <-list_fmap_compose.
    rewrite (list_fmap_ext _ (λ x, n + closure_id x)) by done.
    rewrite (list_fmap_compose closure_id (λ i, n + i)), Hids.
    rewrite Nat.add_comm. apply fmap_add_seq. }
  split_and!; try done.
  - by rewrite Hrun2.
  - by rewrite Hrun2.
  - intros c1 c2 H1 H2.
    apply (list_elem_of_fmap_2 closure_id) in H1, H2.
    rewrite Hids in H1. rewrite Hids2 in H2.
    apply elem_of_seq in H1, H2. lia.
  - rewrite Hrun2. simpl. rewrite <-list_fmap_compose. done.
  - apply list_eq. intros i. rewrite list_lookup_fmap.
    destruct (envs (self run1.2) !! i) as [e|] eqn:He; simpl.
    + rewrite (wf_ids _ Hwf1 _ _ He).
      symmetry. apply lookup_seq. split; [done|]. by eapply lookup_lt_Some.
    + symmetry. apply lookup_seq_ge. by apply lookup_ge_None.
  - assert ((skeleton <$> envs (self run1.2)) !! 0 = Some (0, None)) as H0
      by (eapply prefix_lookup_Some; [|exact Henvs]; done).
    by rewrite list_lookup_fmap in H0.
Qed.

Lemma closure_ids_global_frame_ids_per_instance_witness :
  closure_id (mkClosure 0 [] (int 1) 0) < closure_id (mkClosure 1 [] (int 1) 0).
Proof.
  refine (proj1 (proj2 (proj2 (proj2 (proj2 (proj2
            (proj1 closure_ids_global_frame_ids_per_instance
               2 one_closure_program 0))))))
            (mkClosure 0 [] (int 1) 0) (mkClosure 1 [] (int 1) 0) _ _).
  - vm_compute. apply list_elem_of_here.
  - vm_compute. apply list_elem_of_here.
Defined.

(** * Further properties of the store and of the evaluator *)

(** ** Nothing is removed *)

Lemma keeps_refl e : keeps e e.
Proof. by split_and!. Qed.

Lemma grows_refl st : grows st st.
Proof. split_and!; [|done..]. intros i e ?. exists e. eauto using keeps_refl. Qed.

Lemma grows_trans st1 st2 st3 : grows st1 st2 → grows st2 st3 → grows st1 st3.
Proof.
  intros (He1 & Hc1 & Hk1) (He2 & Hc2 & Hk2). split_and!; [|by etrans|lia].
  intros i e Hi. destruct (He1 i e Hi) as (e2 & Hi2 & ? & ? & ?).
  destruct (He2 i e2 Hi2) as (e3 & Hi3 & ? & ? & ?).
  exists e3. split; [done|]. split_and!; [congruence..|set_solver].
Qed.

Lemma always_state {A} R (m : M state A) :
  (∀ st, R st st) → (∀ st, (m st).2 = st) → always R m.
Proof. intros HR Hm st. by rewrite Hm. Qed.

Lemma always_bind {A B} R (m : M state A) (k : A → M state B) :
  (∀ st1 st2 st3, R st1 st2 → R st2 st3 → R st1 st3) →
  always R m → (∀ a, always R (k a)) → always R (bind m k).
Proof.
  intros HR Hm Hk st. unfold bind. specialize (Hm st).
  destruct (m st) as [[a| | |] st']; try done. eapply HR; [done|apply Hk].
Qed.

Lemma grows_insert st i e var val :
  envs (self st) !! i = Some e →
  grows st (set_envs (<[i := define_in var val e]> (envs (self st))) st).
Proof.
  intros Hi. split_and!; simpl; [|done..]. intros j ej Hj.
  destruct (decide (i = j)) as [<-|Hne].
  - rewrite list_lookup_insert_eq by (by eapply lookup_lt_Some).
    eexists. split; [done|]. simplify_eq. split_and!; [done..|].
    simpl. rewrite dom_insert. set_solver.
  - rewrite list_lookup_insert_ne by done. eauto using keeps_refl.
Qed.

Lemma update_from_insert_1 fuel l var val : ∀ env l',
  update_from fuel l env var val = Return l' →
  ∃ a ea, l !! a = Some ea ∧ is_Some (bindings ea !! var) ∧
          l' = <[a := define_in var val ea]> l.
Proof.
  induction fuel as [|fuel IH]; intros env l'; [done|]. simpl.
  destruct (l !! env) as [e|] eqn:He; [|done].
  destruct (bindings e !! var) eqn:Hx.
  - intros [= <-]. exists env, e. by rewrite Hx.
  - destruct (parent e); [apply IH|done].
Qed.

Lemma grows_lookup env var : always grows (lookup env var).
Proof. by apply always_state; [apply grows_refl|]. Qed.

Lemma grows_define env var val : always grows (define env var val).
Proof.
  intros st. unfold define.
  destruct (envs (self st) !! env) as [e|] eqn:He; [|apply grows_refl].
  by apply grows_insert.
Qed.

Lemma grows_update env var val : always grows (update env var val).
Proof.
  intros st. unfold update.
  destruct (update_from _ _ _ _ _) as [l'| | |] eqn:Hu; try apply grows_refl.
  apply update_from_insert_1 in Hu as (a & ea & Ha & _ & ->).
  by apply grows_insert.
Qed.

Lemma grows_get_env_id env : always grows (get_env_id env).
Proof.
  apply always_state; [apply grows_refl|]. intros st. unfold get_env_id.
  by case_match.
Qed.

Lemma grows_envs_index i : always grows (envs_index i).
Proof.
  apply always_state; [apply grows_refl|]. intros st. unfold envs_index.
  by case_decide.
Qed.

Lemma grows_new_env p : always grows (new_env p).
Proof.
  intros st. split_and!; simpl; [|done..]. intros i e Hi.
  exists e. split; [by apply lookup_app_l_Some|apply keeps_refl].
Qed.

Lemma grows_new_closure ps b i : always grows (new_closure ps b i).
Proof.
  intros st. split_and!; simpl; [|by apply prefix_app_r|lia].
  intros j e Hj. eauto using keeps_refl.
Qed.

Create HintDb grows.
#[local] Hint Resolve grows_lookup grows_define grows_update grows_get_env_id
  grows_envs_index grows_new_env grows_new_closure : grows.
#[local] Hint Extern 1 (always grows (ret _)) =>
  by apply always_state; [apply grows_refl|] : grows.
#[local] Hint Extern 1 (always grows (raise _)) =>
  by apply always_state; [apply grows_refl|] : grows.
#[local] Hint Extern 1 (always grows (lift _)) =>
  by apply always_state; [apply grows_refl|] : grows.
#[local] Hint Extern 1 (always grows out_of_fuel) =>
  by apply always_state; [apply grows_refl|] : grows.

Ltac grows_step := apply always_bind; [ exact grows_trans | | intros ? ].

Section Grows.
Variable ev : sexp → nat → M state value.
Hypothesis Hev : ∀ e env, always grows (ev e env).

Lemma grows_eval_each exprs env : ∀ result,
  always grows (eval_each ev result exprs env).
Proof.
  induction exprs as [|e exprs IH]; intros result; simpl; auto with grows.
  grows_step; auto.
Qed.

Lemma grows_eval_element x env : always grows (eval_element ev x env).
Proof. destruct x; simpl; auto with grows. Qed.

Lemma grows_bind_let bl env let_env :
  always grows (bind_let ev bl env let_env).
Proof.
  induction bl as [|b bl IH]; simpl; auto with grows.
  repeat (grows_step; auto using grows_eval_element with grows).
Qed.

Lemma grows_eval_args args env : always grows (eval_args ev args env).
Proof.
  induction args as [|a args IH]; simpl; auto with grows.
  repeat (grows_step; auto with grows).
Qed.

Lemma grows_bind_params ps : ∀ args env call_env,
  always grows (bind_params ev ps args env call_env).
Proof.
  induction ps as [|p ps IH]; intros [|a args] env call_env; simpl;
    auto with grows.
  repeat (grows_step; auto with grows).
Qed.
End Grows.

Lemma grows_eval_expr fuel : ∀ expr env, always grows (eval_expr fuel expr env).
Proof.
  induction fuel as [|fuel IH]; intros expr env;
    [by apply always_state; [apply grows_refl|]|].
  pose proof (grows_eval_each _ IH). pose proof (grows_bind_let _ IH).
  pose proof (grows_eval_args _ IH). pose proof (grows_bind_params _ IH).
  simpl. destruct expr as [n|s|[|op args]]; auto with grows.
  repeat case_match; subst; auto with grows;
    repeat (grows_step; auto with grows).
  match goal with |- always _ (match ?v with _ => _ end) => destruct v end;
    auto with grows; repeat (grows_step; auto with grows).
Qed.

Lemma grows_run fuel exprs : always grows (run fuel exprs).
Proof.
  induction exprs as [|e exprs IH]; simpl; auto with grows.
  grows_step; auto using grows_eval_expr.
Qed.



(** ** [define], [update] and [lookup] *)

(** Rebinding [var] in one frame does not change what any walk finds for
    another name. *)
Lemma lookup_from_insert_ne fuel l a ea var val var' :
  l !! a = Some ea → var' ≠ var → ∀ env,
  lookup_from fuel (<[a := define_in var val ea]> l) env var'
  = lookup_from fuel l env var'.
Proof.
  intros Ha Hne. induction fuel as [|fuel IH]; intros env; [done|]. simpl.
  destruct (decide (a = env)) as [<-|Hae].
  - rewrite list_lookup_insert_eq by (by eapply lookup_lt_Some). rewrite Ha.
    simpl. rewrite lookup_insert_ne by done.
    destruct (bindings ea !! var'); [done|]. destruct (parent ea); [apply IH|done].
  - rewrite list_lookup_insert_ne by done.
    destruct (l !! env) as [e|]; [|done].
    destruct (bindings e !! var'); [done|]. destruct (parent e); [apply IH|done].
Qed.

(** A walk that starts below frame [a] never meets it. *)
Lemma lookup_from_insert_below fuel l a f x :
  (∀ i e p, l !! i = Some e → parent e = Some p → p < i) → ∀ env,
  env < a →
  lookup_from fuel (<[a := f]> l) env x = lookup_from fuel l env x.
Proof.
  intros Hpar. induction fuel as [|fuel IH]; intros env Hlt; [done|]. simpl.
  rewrite list_lookup_insert_ne by lia.
  destruct (l !! env) as [e|] eqn:He; [|done].
  destruct (bindings e !! x); [done|].
  destruct (parent e) as [p|] eqn:Hp; [|done].
  apply IH. specialize (Hpar _ _ _ He Hp). lia.
Qed.

Lemma ancestor_insert l a ea var val n : ∀ env,
  l !! a = Some ea →
  ancestor (<[a := define_in var val ea]> l) n env = ancestor l n env.
Proof.
  induction n as [|n IH]; intros env Ha; [done|]. simpl.
  destruct (decide (a = env)) as [<-|Hae].
  - rewrite list_lookup_insert_eq by (by eapply lookup_lt_Some). rewrite Ha.
    simpl. destruct (parent ea); simpl; [by apply IH|done].
  - rewrite list_lookup_insert_ne by done.
    destruct (l !! env) as [e|]; simpl; [|done].
    destruct (parent e); simpl; [by apply IH|done].
Qed.

(** Rebinding a bound name moves no nearest binding. *)
Lemma nearest_insert l a ea var val env n b :
  l !! a = Some ea → is_Some (bindings ea !! var) →
  nearest l env var n b →
  nearest (<[a := define_in var val ea]> l) env var n b.
Proof.
  intros Ha Hbound (Hb & Hsome & Hmin). split_and!.
  - by rewrite ancestor_insert.
  - destruct (decide (a = b)) as [<-|Hab].
    + rewrite list_lookup_insert_eq by (by eapply lookup_lt_Some). simpl.
      by rewrite lookup_insert_eq.
    + by rewrite list_lookup_insert_ne.
  - intros m c Hm Hc. rewrite ancestor_insert in Hc by done.
    specialize (Hmin m c Hm Hc). intros e.
    destruct (decide (a = c)) as [<-|Hac].
    + rewrite (Hmin ea Ha) in Hbound. by destruct Hbound.
    + rewrite list_lookup_insert_ne by done. apply Hmin.
Qed.

Lemma parents_insert (l : list Environment) a ea var val :
  (∀ i e p, l !! i = Some e → parent e = Some p → p < i) →
  l !! a = Some ea →
  ∀ i e p, (<[a := define_in var val ea]> l) !! i = Some e →
           parent e = Some p → p < i.
Proof.
  intros Hpar Ha i e p [(-> & <- & _)|[_ Hi]]%list_lookup_insert_Some Hp;
    simpl in *; eauto.
Qed.

(** X2. [Environment.define] followed by [lookup]: the frame itself then
    finds the value just defined, whatever its ancestors bind; no frame
    finds anything else than before for any other name; and, in a
    well-formed store, the frames with a smaller handle, the ancestors
    among them, find what they found before for every name. *)
Theorem define_then_lookup (st : state) (env : nat) (var : string) (val : value) :
  valid env st →
  let st' := (define env var val st).2 in
  (define env var val st).1 = Return () ∧
  lookup env var st' = (Return val, st') ∧
  (∀ env' var', var' ≠ var →
     (lookup env' var' st').1 = (lookup env' var' st).1) ∧
  (wf st → ∀ env' x, env' < env →
     (lookup env' x st').1 = (lookup env' x st).1).
Proof.
  intros Hv. unfold define, lookup.
  destruct (lookup_lt_is_Some_2 _ _ Hv) as [e He]. rewrite He. simpl.
  rewrite length_insert. split_and!; [done| | |].
  - destruct (length (envs (self st))) as [|fuel] eqn:Hlen;
      [unfold valid in Hv; lia|].
    simpl. rewrite list_lookup_insert_eq by (by eapply lookup_lt_Some).
    simpl. by rewrite lookup_insert_eq.
  - intros env' var' Hne. by apply lookup_from_insert_ne.
  - intros Hwf env' x Hlt. apply lookup_from_insert_below; [|done].
    apply (wf_parent _ Hwf).
Qed.

Lemma define_then_lookup_witness :
  let st := (new_env global_env (mkState 0 init)).2 in
  let st' := (define 1 "+" VNone st).2 in
  lookup 1 "+" st' = (Return VNone, st').
Proof.
  intros st st'.
  refine (proj1 (proj2 (define_then_lookup st 1 "+" VNone _))).
  unfold valid. simpl. lia.
Defined.

(** X3. [Environment.update] followed by [lookup], in a well-formed store:
    when the walk from a frame finds a binding of the name, [update]
    succeeds, and afterwards that frame and every other frame whose walk
    ends at the same binding find the new value; the names bound in each
    frame are the same as before ([update] never creates a binding) and no
    frame finds anything else than before for any other name. *)
Theorem update_then_lookup (st : state) (env env' : nat) (var : string)
    (val : value) (n n' a : nat) :
  wf st → valid env st → valid env' st →
  nearest (envs (self st)) env var n a →
  nearest (envs (self st)) env' var n' a →
  let st' := (update env var val st).2 in
  (update env var val st).1 = Return () ∧
  lookup env var st' = (Return val, st') ∧
  lookup env' var st' = (Return val, st') ∧
  (∀ i e, envs (self st) !! i = Some e →
     ∃ e', envs (self st') !! i = Some e' ∧
           dom (bindings e') = dom (bindings e)) ∧
  (∀ env'' var', var' ≠ var →
     (lookup env'' var' st').1 = (lookup env'' var' st).1).
Proof.
  intros Hwf Hv Hv' Hnear Hnear'. unfold update, lookup.
  pose proof (wf_parent _ Hwf) as Hpar.
  destruct (resolve_cases _ var val _ env Hpar Hv Hv)
    as [(m & b & ea & w & Hnear2 & Hea & Hx & _ & ->)|(Hnone & _)];
    [|by destruct (nearest_not_unbound _ _ _ _ _ Hnear)].
  destruct (nearest_unique _ _ _ _ _ _ _ Hnear Hnear2) as [<- <-]. simpl.
  rewrite length_insert.
  assert (is_Some (bindings ea !! var)) as Hbound by (by rewrite Hx).
  pose proof (parents_insert _ _ _ var val Hpar Hea) as Hpar'.
  assert (∀ e k, valid e st → nearest (envs (self st)) e var k a →
            lookup_from (length (envs (self st)))
              (<[a := define_in var val ea]> (envs (self st))) e var
            = Return val) as Hfind.
  { intros e k He Hk. apply (nearest_insert _ _ _ _ val _ _ _ Hea Hbound) in Hk.
    destruct (resolve_cases _ var val (length (envs (self st))) e Hpar')
      as [(k2 & b2 & eb & w2 & Hk2 & Heb & Hw2 & Hl & _)|(Hnone & _)];
      [by rewrite length_insert|done| |by destruct (nearest_not_unbound _ _ _ _ _ Hk)].
    destruct (nearest_unique _ _ _ _ _ _ _ Hk Hk2) as [<- <-].
    rewrite Hl. f_equal.
    rewrite list_lookup_insert_eq in Heb by (by eapply lookup_lt_Some).
    injection Heb as <-. simpl in Hw2. rewrite lookup_insert_eq in Hw2.
    congruence. }
  split_and!; [done|by erewrite Hfind|by erewrite Hfind| |].
  - intros i e Hi. destruct (decide (a = i)) as [<-|Hne].
    + rewrite list_lookup_insert_eq by (by eapply lookup_lt_Some).
      eexists. split; [done|]. simplify_eq. simpl.
      rewrite dom_insert_L. apply subseteq_union_1_L.
      by apply singleton_subseteq_l, elem_of_dom.
    + rewrite list_lookup_insert_ne by done. eauto.
  - intros env'' var' Hne. by apply lookup_from_insert_ne.
Qed.

Lemma update_then_lookup_witness :
  let st := (new_env global_env (mkState 0 init)).2 in
  let st' := (update 1 "+" VNone st).2 in
  lookup 0 "+" st' = (Return VNone, st').
Proof.
  intros st st'.
  refine (proj1 (proj2 (proj2 (update_then_lookup st 1 0 "+" VNone 1 0 0 _ _ _ _ _)))).
  - apply new_env_wf; [apply wf_init|]. unfold valid, global_env. simpl. lia.
  - unfold valid. simpl. lia.
  - unfold valid. simpl. lia.
  - split_and!; [reflexivity|by eexists|].
    intros [|m] b Hm Hb; [|lia]. injection Hb as <-.
    intros e He. injection He as <-. reflexivity.
  - split_and!; [reflexivity|by eexists|]. intros m b Hm. lia.
Defined.

(** ** Properties kept by the four operations that change the state *)

Section Preserves.
Variable P : state → Prop.
Hypothesis Hdefine : ∀ env var val, preserves P (define env var val).
Hypothesis Hupdate : ∀ env var val, preserves P (update env var val).
Hypothesis Hnew_env : ∀ p, preserves P (new_env p).
Hypothesis Hnew_closure : ∀ ps b i, preserves P (new_closure ps b i).

Lemma preserves_get_env_id env : preserves P (get_env_id env).
Proof.
  apply preserves_state. intros st. unfold get_env_id. by case_match.
Qed.

Lemma preserves_envs_index i : preserves P (envs_index i).
Proof.
  apply preserves_state. intros st. unfold envs_index. by case_decide.
Qed.

Ltac pstep := apply preserves_bind; [ | intros ? ].
Ltac pdone :=
  first [ by apply preserves_state
        | apply Hdefine | apply Hupdate | apply Hnew_env | apply Hnew_closure
        | apply preserves_get_env_id | apply preserves_envs_index ].

Section Loops.
Variable ev : sexp → nat → M state value.
Hypothesis Hev : ∀ e env, preserves P (ev e env).

Lemma preserves_eval_each exprs env : ∀ result,
  preserves P (eval_each ev result exprs env).
Proof.
  induction exprs as [|e exprs IH]; intros result; simpl; [pdone|].
  pstep; auto.
Qed.

Lemma preserves_eval_element x env : preserves P (eval_element ev x env).
Proof. destruct x; simpl; [apply Hev|pdone]. Qed.

Lemma preserves_bind_let bl env let_env :
  preserves P (bind_let ev bl env let_env).
Proof.
  induction bl as [|b bl IH]; simpl; [pdone|].
  repeat (pstep; first [pdone | apply preserves_eval_element | apply IH | idtac]).
Qed.

Lemma preserves_eval_args args env : preserves P (eval_args ev args env).
Proof.
  induction args as [|a args IH]; simpl; [pdone|].
  repeat (pstep; first [pdone | apply Hev | apply IH | idtac]).
Qed.

Lemma preserves_bind_params ps : ∀ args env call_env,
  preserves P (bind_params ev ps args env call_env).
Proof.
  induction ps as [|p ps IH]; intros [|a args] env call_env; simpl;
    try pdone.
  repeat (pstep; first [pdone | apply Hev | apply IH | idtac]).
Qed.
End Loops.

Lemma preserves_eval_expr fuel : ∀ expr env, preserves P (eval_expr fuel expr env).
Proof.
  induction fuel as [|fuel IH]; intros expr env; [by apply preserves_state|].
  pose proof (preserves_eval_each _ IH) as H1.
  pose proof (preserves_bind_let _ IH) as H2.
  pose proof (preserves_eval_args _ IH) as H3.
  pose proof (preserves_bind_params _ IH) as H4.
  simpl. destruct expr as [n|s|[|op args]]; try pdone.
  repeat case_match; subst; try pdone; try apply H1;
    repeat (pstep; first [pdone | apply IH | apply H1 | apply H2 | idtac]).
  match goal with |- preserves _ (match ?v with _ => _ end) => destruct v end;
    try pdone;
    repeat (pstep; first [pdone | apply IH | apply H3 | apply H4 | idtac]).
Qed.

Lemma preserves_run fuel exprs : preserves P (run fuel exprs).
Proof.
  induction exprs as [|e exprs IH]; simpl; [pdone|].
  pstep; [apply preserves_eval_expr|apply IH].
Qed.
End Preserves.

(** ** The tree of frames *)

Lemma rooted_insert st a ea var val :
  rooted st → envs (self st) !! a = Some ea →
  rooted (set_envs (<[a := define_in var val ea]> (envs (self st))) st).
Proof.
  intros [Hlen Hroot] Ha. split; simpl; [by rewrite length_insert|].
  intros i e [(-> & <- & _)|[_ ?]]%list_lookup_insert_Some; simpl; eauto.
Qed.

Lemma rooted_define env var val : preserves rooted (define env var val).
Proof.
  intros st Hst. unfold define.
  destruct (envs (self st) !! env) as [e|] eqn:He; [|done].
  by apply rooted_insert.
Qed.

Lemma rooted_update env var val : preserves rooted (update env var val).
Proof.
  intros st Hst. unfold update.
  destruct (update_from _ _ _ _ _) as [l'| | |] eqn:Hu; try done.
  apply update_from_insert_1 in Hu as (a & ea & Ha & _ & ->).
  by apply rooted_insert.
Qed.

Lemma rooted_new_env p : preserves rooted (new_env p).
Proof.
  intros st [Hlen Hroot]. split; simpl; [rewrite length_app; lia|].
  intros i e [[_ ?]|[-> <-]]%lookup_snoc_Some; simpl; [by eauto|].
  split; [done|lia].
Qed.

Lemma rooted_new_closure ps b i : preserves rooted (new_closure ps b i).
Proof. by intros st Hst. Qed.

Lemma rooted_init c : rooted (mkState c init).
Proof.
  split; simpl; [lia|]. intros [|i] e He; by simplify_eq/=.
Qed.

(** In a tree whose parents are older, the walk from a frame ends at the
    root. *)
Lemma ancestor_root st :
  wf st → rooted st → ∀ i, valid i st →
  ∃ n, n ≤ i ∧ ancestor (envs (self st)) n i = Some 0.
Proof.
  intros Hwf [_ Hroot] i. induction (lt_wf i) as [i _ IH]. intros Hv.
  destruct (decide (i = 0)) as [->|Hne]; [by exists 0|].
  destruct (lookup_lt_is_Some_2 _ _ Hv) as [e He].
  destruct (parent e) as [p|] eqn:Hp; [|by apply (Hroot _ _ He) in Hp].
  pose proof (wf_parent _ Hwf _ _ _ He Hp) as Hlt.
  destruct (IH p Hlt) as (n & Hn & Hanc); [unfold valid in *; lia|].
  exists (S n). split; [lia|]. simpl. rewrite He. simpl. by rewrite Hp.
Qed.

(** X4. The frames form a tree under the global environment.  From a
    well-formed state whose only frame without a parent is frame 0, any
    evaluation, whatever its outcome, leads to a state where again frame 0
    is the only frame without a parent, the parent of any other frame is an
    older frame, and the walk along the parents from any frame ends at
    frame 0 after at most as many steps as the handle of the frame. *)
Theorem frames_form_a_tree fuel expr env st :
  wf st → rooted st → valid env st →
  let st' := (eval_expr fuel expr env st).2 in
  ∀ i e, envs (self st') !! i = Some e →
    (parent e = None ↔ i = 0) ∧
    (∀ p, parent e = Some p → p < i) ∧
    ∃ n, n ≤ i ∧ ancestor (envs (self st')) n i = Some 0.
Proof.
  intros Hwf Hroot Hv st' i e He.
  assert (wf st') as Hwf'.
  { by destruct (triple_eval_expr fuel expr env st _ _ Hwf Hv
                   (surjective_pairing _)) as (? & _). }
  assert (rooted st') as Hroot'.
  { by apply (preserves_eval_expr rooted rooted_define rooted_update
                rooted_new_env rooted_new_closure). }
  split_and!.
  - by apply Hroot'.
  - intros p Hp. by eapply wf_parent.
  - apply ancestor_root; [done..|]. by eapply lookup_lt_Some.
Qed.

Lemma frames_form_a_tree_witness :
  let st' := (eval_expr 3 let_set_example global_env (mkState 0 init)).2 in
  ∃ n, n ≤ 1 ∧ ancestor (envs (self st')) n 1 = Some 0.
Proof.
  intros st'.
  refine (proj2 (proj2 (frames_form_a_tree 3 let_set_example global_env
            (mkState 0 init) (wf_init 0) (rooted_init 0) _ 1
            (default (mkEnvironment 0 None ∅) (envs (self st') !! 1)) _))).
  - unfold valid, global_env. simpl. lia.
  - vm_compute. reflexivity.
Defined.

(** X5. What the global environment binds can be looked up everywhere
    and stays so.  From a well-formed state whose only frame without a
    parent is frame 0, after any evaluation, whatever its outcome, [lookup]
    of a name that frame 0 bound before the evaluation returns a value from
    every frame of the store; this holds for the four operators in every
    state that [run] reaches from a fresh interpreter. *)
Theorem global_names_stay_visible :
  (∀ fuel expr env st x i,
     wf st → rooted st → valid env st →
     is_Some (envs (self st) !! 0 ≫= λ e, bindings e !! x) →
     let st' := (eval_expr fuel expr env st).2 in
     valid i st' →
     ∃ v, lookup i x st' = (Return v, st')) ∧
  (∀ fuel exprs c x i,
     x ∈ ["+"; "-"; "*"; "/"] →
     let st' := (run fuel exprs (mkState c init)).2 in
     valid i st' →
     ∃ v, lookup i x st' = (Return v, st')).
Proof.
  assert (∀ st st' x i, grows st st' → wf st' → rooted st' →
            is_Some (envs (self st) !! 0 ≫= λ e, bindings e !! x) →
            valid i st' → ∃ v, lookup i x st' = (Return v, st')) as Hvisible.
  { intros st st' x i (Hgrows & _) Hwf' Hroot' Hx Hi. unfold lookup.
    destruct (resolve_cases _ x VNone _ i (wf_parent _ Hwf') Hi Hi)
      as [(n & a & ea & v & _ & _ & _ & -> & _)|(Hnone & _)]; [by eauto|].
    exfalso. destruct (ancestor_root _ Hwf' Hroot' i Hi) as (n & _ & Hn).
    specialize (Hnone n 0 Hn).
    destruct (envs (self st) !! 0) as [e|] eqn:He; [|by destruct Hx].
    destruct (Hgrows 0 e He) as (e' & He' & _ & _ & Hdom).
    simpl in Hx. apply elem_of_dom, Hdom, elem_of_dom in Hx.
    rewrite (Hnone e' He') in Hx. by destruct Hx. }
  split.
  - intros fuel expr env st x i Hwf Hroot Hv Hx st' Hi.
    apply (Hvisible st); [apply grows_eval_expr| | |done..].
    + by destruct (triple_eval_expr fuel expr env st _ _ Hwf Hv
                     (surjective_pairing _)) as (? & _).
    + by apply (preserves_eval_expr rooted rooted_define rooted_update
                  rooted_new_env rooted_new_closure).
  - intros fuel exprs c x i Hx st' Hi.
    apply (Hvisible (mkState c init)); [apply grows_run| | | |done].
    + destruct (triple_run fuel exprs (mkState c init) _ _ (wf_init c)
                  (wf_root _ (wf_init c)) (surjective_pairing _)) as (? & _).
      done.
    + apply (preserves_run rooted rooted_define rooted_update
               rooted_new_env rooted_new_closure), rooted_init.
    + simpl. repeat (apply elem_of_cons in Hx as [->|Hx]; [by eexists|]).
      by apply elem_of_nil in Hx.
Qed.

Lemma global_names_stay_visible_witness :
  let st' := (eval_expr 3 let_set_example global_env (mkState 0 init)).2 in
  ∃ v, lookup 1 "*" st' = (Return v, st').
Proof.
  intros st'.
  refine (proj1 global_names_stay_visible 3 let_set_example global_env
            (mkState 0 init) "*" 1 (wf_init 0) (rooted_init 0) _ _ _).
  - unfold valid, global_env. simpl. lia.
  - by eexists.
  - vm_compute. lia.
Defined.

(** ** The registry of closures *)

Lemma numbered_set_envs l st : numbered st → numbered (set_envs l st).
Proof. done. Qed.

Lemma numbered_define env var val : preserves numbered (define env var val).
Proof. intros st Hst. unfold define. by case_match. Qed.

Lemma numbered_update env var val : preserves numbered (update env var val).
Proof. intros st Hst. unfold update. by case_match. Qed.

Lemma numbered_new_env p : preserves numbered (new_env p).
Proof. by intros st Hst. Qed.

Lemma numbered_new_closure ps b i : preserves numbered (new_closure ps b i).
Proof.
  intros st [Hlt Hdup]. split; simpl.
  - intros c [Hc|Hc%list_elem_of_singleton]%elem_of_app.
    + specialize (Hlt c Hc). lia.
    + subst c. simpl. lia.
  - rewrite fmap_app. apply NoDup_app. split_and!; [done| |apply NoDup_singleton].
    intros j Hj Hj'%list_elem_of_singleton. simpl in Hj'. subst j.
    apply list_elem_of_fmap in Hj as (c & Hid & Hc).
    specialize (Hlt c Hc). lia.
Qed.

(** X6. Every closure is recorded once, under an id of its own.  If the
    ids of the recorded closures differ from each other and lie below the
    global counter, as in a fresh interpreter, they still do after any
    evaluation, whatever its outcome; so two positions of the registry
    never hold the same id, also when several interpreters share the
    counter. *)
Theorem closure_ids_are_unique fuel expr env st :
  numbered st →
  let st' := (eval_expr fuel expr env st).2 in
  (∀ c, c ∈ closures (self st') → closure_id c < closure_counter st') ∧
  (∀ i j c1 c2,
     closures (self st') !! i = Some c1 → closures (self st') !! j = Some c2 →
     closure_id c1 = closure_id c2 → i = j).
Proof.
  intros Hst st'. subst st'.
  destruct (preserves_eval_expr numbered numbered_define numbered_update
              numbered_new_env numbered_new_closure fuel expr env st Hst)
    as [Hlt Hdup].
  split; [done|]. intros i j c1 c2 Hi Hj Heq.
  eapply NoDup_lookup; [exact Hdup| |].
  - rewrite list_lookup_fmap, Hi. done.
  - rewrite list_lookup_fmap, Hj. simpl. by rewrite Heq.
Qed.

Lemma closure_ids_are_unique_witness :
  let st' := (eval_expr 3 (SList [Symbol "begin";
                SList [Symbol "lambda"; SList []];
                SList [Symbol "lambda"; SList []]]) global_env (mkState 7 init)).2 in
  numbered (mkState 7 init) ∧
  ∀ c, c ∈ closures (self st') → closure_id c < closure_counter st'.
Proof.
  intros st'.
  assert (numbered (mkState 7 init)) as Hn.
  { split; simpl; [by intros c ?%elem_of_nil|apply NoDup_nil_2]. }
  split; [exact Hn|].
  exact (proj1 (closure_ids_are_unique 3 _ global_env (mkState 7 init) Hn)).
Defined.

(** ** [run] *)

Lemma run_app fuel es1 es2 st :
  run fuel (es1 ++ es2) st = (do_ run fuel es1; run fuel es2) st.
Proof.
  revert st. induction es1 as [|e es1 IH]; intros st; [done|].
  cbn [app run]. unfold bind at 1 2 3.
  destruct (eval_expr fuel e global_env st) as [[v| | |] st1];
    first [done | apply IH].
Qed.

(** X7. [run] evaluates the top-level forms in order, each in the global
    environment: running two programs one after the other in one
    interpreter is running their concatenation, and the first form that
    raises ends the run with its exception and the state it left, the
    forms after it being not evaluated at all. *)
Theorem run_in_order_until_exception :
  (∀ fuel es1 es2 st,
     run fuel (es1 ++ es2) st = (do_ run fuel es1; run fuel es2) st) ∧
  (∀ fuel es1 e es2 st st1 x st2,
     run fuel es1 st = (Return (), st1) →
     eval_expr fuel e global_env st1 = (Raise x, st2) →
     run fuel (es1 ++ e :: es2) st = (Raise x, st2)) ∧
  (∀ fuel es1 e st st1 v st2,
     run fuel es1 st = (Return (), st1) →
     eval_expr fuel e global_env st1 = (Return v, st2) →
     run fuel (es1 ++ [e]) st = (Return (), st2)).
Proof.
  split_and!.
  - apply run_app.
  - intros fuel es1 e es2 st st1 x st2 Hrun He.
    rewrite run_app, (bind_Return _ _ _ _ _ Hrun). cbn [run].
    unfold bind. by rewrite He.
  - intros fuel es1 e st st1 v st2 Hrun He.
    rewrite run_app, (bind_Return _ _ _ _ _ Hrun). cbn [run].
    by rewrite (bind_Return _ _ _ _ _ He).
Qed.

Lemma run_in_order_until_exception_witness :
  run 2 ([int 1] ++ Symbol "z" :: [SList [Symbol "lambda"; SList []]])
    (mkState 0 init)
  = (Raise (NameError "z"), mkState 0 init).
Proof.
  refine (proj1 (proj2 run_in_order_until_exception)
            2 [int 1] (Symbol "z") _ (mkState 0 init) (mkState 0 init)
            (NameError "z") (mkState 0 init) _ _); reflexivity.
Defined.

(** ** [define] *)

Lemma run_define_forms fuel ds : ∀ c e0 l cl,
  run (S (S fuel)) (define_forms ds)
    (mkState c (mkInterpreter (e0 :: l) cl))
  = (Return (),
     mkState c (mkInterpreter
       (mkEnvironment (env_id e0) (parent e0) (defined (bindings e0) ds) :: l) cl)).
Proof.
  induction ds as [|[x n] ds IH]; intros c e0 l cl; [by destruct e0|].
  cbn [define_forms fmap list_fmap run fst snd].
  erewrite bind_Return; [|reflexivity]. apply (IH c (define_in x (VNum n) e0)).
Qed.

Lemma defined_lookup x ds : ∀ m,
  defined m ds !! x = from_option (Some ∘ VNum) (m !! x) (last_defined x ds).
Proof.
  unfold last_defined.
  induction ds as [|[y n] ds IH] using rev_ind; intros m; [done|].
  unfold defined. rewrite foldl_app, filter_app. simpl.
  rewrite filter_cons, filter_nil. simpl. case_decide as Hy.
  - subst y. rewrite lookup_insert_eq, last_snoc. done.
  - rewrite lookup_insert_ne by done. rewrite app_nil_r. apply IH.
Qed.

(** X8. After a program made only of definitions of numbers, run in a
    fresh interpreter or in any other whose store has a global frame, the
    global frame binds every defined name to the number of its last
    definition and every other name as before; no frame or closure is
    created, and the run returns normally. *)
Theorem last_definition_wins fuel (ds : list (string * number)) c e0 l cl :
  let st := mkState c (mkInterpreter (e0 :: l) cl) in
  let e0' := mkEnvironment (env_id e0) (parent e0) (defined (bindings e0) ds) in
  let st' := mkState c (mkInterpreter (e0' :: l) cl) in
  run (S (S fuel)) (define_forms ds) st = (Return (), st') ∧
  (∀ x n, last_defined x ds = Some n →
     lookup global_env x st' = (Return (VNum n), st')) ∧
  (∀ x, last_defined x ds = None → bindings e0' !! x = bindings e0 !! x).
Proof.
  intros st e0' st'. split_and!.
  - apply run_define_forms.
  - intros x n Hx. unfold lookup. simpl. by rewrite defined_lookup, Hx.
  - intros x Hx. simpl. by rewrite defined_lookup, Hx.
Qed.

Lemma last_definition_wins_witness :
  lookup global_env "x"
    (mkState 0 (mkInterpreter
       [mkEnvironment 0 None
          (defined builtins [("x", PyInt 1); ("y", PyInt 2); ("x", PyInt 3)])] []))
  = (Return (VNum (PyInt 3)),
     mkState 0 (mkInterpreter
       [mkEnvironment 0 None
          (defined builtins [("x", PyInt 1); ("y", PyInt 2); ("x", PyInt 3)])] [])).
Proof.
  refine (proj1 (proj2 (last_definition_wins 0
                [("x", PyInt 1); ("y", PyInt 2); ("x", PyInt 3)]
                0 (mkEnvironment 0 None builtins) [] [])) "x" (PyInt 3) _).
  reflexivity.
Defined.

(** ** [begin] *)

Lemma eval_each_app ev es1 es2 env : ∀ result st,
  eval_each ev result (es1 ++ es2) env st
  = (do r <- eval_each ev result es1 env; eval_each ev r es2 env) st.
Proof.
  induction es1 as [|e es1 IH]; intros result st; [done|].
  cbn [app eval_each]. unfold bind at 1 2 3.
  destruct (ev e env st) as [[v| | |] st1]; first [done | apply IH].
Qed.

(** X9. [(begin e1 ... en e)] evaluates its forms in order in the same
    frame and returns what the last one returns in the state the others
    left, their values being dropped; when one of [e1 ... en] raises, the
    [begin] raises the same in the same state and [e] is not evaluated; the
    empty [begin] returns [None] and changes nothing. *)
Theorem begin_returns_last :
  (∀ fuel es e env st,
     eval_expr (S fuel) (SList (Symbol "begin" :: es ++ [e])) env st
     = (do_ eval_each (eval_expr fuel) VNone es env; eval_expr fuel e env) st) ∧
  (∀ fuel es e env st x st1,
     eval_each (eval_expr fuel) VNone es env st = (Raise x, st1) →
     eval_expr (S fuel) (SList (Symbol "begin" :: es ++ [e])) env st
     = (Raise x, st1)) ∧
  (∀ fuel env st,
     eval_expr (S fuel) (SList [Symbol "begin"]) env st = (Return VNone, st)).
Proof.
  assert (∀ fuel es e env st,
            eval_expr (S fuel) (SList (Symbol "begin" :: es ++ [e])) env st
            = (do_ eval_each (eval_expr fuel) VNone es env;
               eval_expr fuel e env) st) as Hlast.
  { intros fuel es e env st.
    change (eval_expr (S fuel) _ env st)
      with (eval_each (eval_expr fuel) VNone (es ++ [e]) env st).
    rewrite eval_each_app. apply bind_ext. intros r st1.
    cbn [eval_each]. unfold bind, ret.
    by destruct (eval_expr fuel e env st1) as [[] ?]. }
  split_and!; [done| |done].
  intros fuel es e env st x st1 Hes. rewrite Hlast. unfold bind. by rewrite Hes.
Qed.

Lemma begin_returns_last_witness :
  eval_expr 2 (SList (Symbol "begin" :: [Symbol "z"] ++ [int 1])) global_env
    (mkState 0 init)
  = (Raise (NameError "z"), mkState 0 init).
Proof.
  refine (proj1 (proj2 begin_returns_last) 1 [Symbol "z"] (int 1) global_env
            (mkState 0 init) (NameError "z") (mkState 0 init) _).
  reflexivity.
Defined.

(** ** Ill-formed special forms *)

Lemma eval_expr_let fuel binding_list body_exprs env st :
  eval_expr (S fuel) (SList (Symbol "let" :: binding_list :: body_exprs)) env st
  = (do bl <- lift (iterate binding_list);
     do_ bind_let (eval_expr fuel) bl env (length (envs (self st)));
     eval_each (eval_expr fuel) VNone body_exprs (length (envs (self st))))
      (set_envs (envs (self st) ++
                 [mkEnvironment (length (envs (self st))) (Some env) ∅]) st).
Proof. reflexivity. Qed.

Lemma eval_expr_lambda_raise fuel params body_exprs env st x :
  param_names params = Raise x →
  eval_expr (S fuel) (SList (Symbol "lambda" :: params :: body_exprs)) env st
  = (Raise x, st).
Proof.
  intros Hps.
  change (eval_expr (S fuel) _ env st)
    with ((do ps <- lift (param_names params);
           do i <- get_env_id env;
           do closure_obj <- new_closure ps (closure_body body_exprs) i;
           ret (VClosure closure_obj)) st).
  unfold bind at 1, lift. by rewrite Hps.
Qed.

Lemma values_of_not_symbol l :
  (∃ p, p ∈ l ∧ ∀ x, p ≠ Symbol x) → values_of (Elem <$> l) = Raise AttributeError.
Proof.
  intros (p & Hp & Hx). induction l as [|q l IH]; [by apply elem_of_nil in Hp|].
  rewrite fmap_cons. cbn [values_of element_value].
  destruct q as [n|y|l']; try done. cbn.
  apply elem_of_cons in Hp as [->|Hp]; [by destruct (Hx y)|].
  by rewrite (IH Hp).
Qed.

(** X10. The special forms do not check their shape; Python does, at
    the point where the shape is used.  [define] and [set!] with other than
    two arguments raise [ValueError] and [lambda] and [let] without
    arguments raise [IndexError], all before anything is evaluated or
    created.  When the first argument of [define] or [set!] is not a symbol,
    the second is evaluated first and [AttributeError] comes after it, with
    nothing bound.  A [lambda] records no closure when its parameter list
    is a number ([TypeError]), a symbol ([AttributeError]: the loop runs
    over the characters of the name) or a list with an element that is not
    a symbol ([AttributeError]).  A [let] creates its frame first, and the
    empty frame stays in the store when the binding list is a number
    ([TypeError]) or a symbol ([ValueError]: a character does not unpack
    into two), or when its first binding is a number ([TypeError]), a list
    of other than two elements ([ValueError]) or a symbol ([AttributeError]
    if the name has two characters, [ValueError] otherwise). *)
Theorem ill_formed_forms :
  (∀ fuel kw args env st,
     kw = "define" ∨ kw = "set!" → length args ≠ 2 →
     eval_expr (S fuel) (SList (Symbol kw :: args)) env st
     = (Raise ValueError, st)) ∧
  (∀ fuel kw env st,
     kw = "lambda" ∨ kw = "let" →
     eval_expr (S fuel) (SList [Symbol kw]) env st = (Raise IndexError, st)) ∧
  (∀ fuel kw target e env st v st1,
     kw = "define" ∨ kw = "set!" → (∀ x, target ≠ Symbol x) →
     eval_expr fuel e env st = (Return v, st1) →
     eval_expr (S fuel) (SList [Symbol kw; target; e]) env st
     = (Raise AttributeError, st1)) ∧
  (∀ fuel params body_exprs env st,
     let result :=
       eval_expr (S fuel) (SList (Symbol "lambda" :: params :: body_exprs)) env st in
     match params with
     | Num _ => result = (Raise TypeError, st)
     | Symbol name => name ≠ "" → result = (Raise AttributeError, st)
     | SList l =>
         (∃ p, p ∈ l ∧ ∀ x, p ≠ Symbol x) → result = (Raise AttributeError, st)
     end) ∧
  (∀ fuel binding_list body_exprs env st,
     let result :=
       eval_expr (S fuel) (SList (Symbol "let" :: binding_list :: body_exprs)) env st in
     let st' := set_envs (envs (self st) ++
                  [mkEnvironment (length (envs (self st))) (Some env) ∅]) st in
     match binding_list with
     | Num _ => result = (Raise TypeError, st')
     | Symbol name => name ≠ "" → result = (Raise ValueError, st')
     | SList [] => True
     | SList (Num _ :: _) => result = (Raise TypeError, st')
     | SList (Symbol name :: _) =>
         result = (Raise (if decide (String.length name = 2)
                          then AttributeError else ValueError), st')
     | SList (SList binding :: _) =>
         length binding ≠ 2 → result = (Raise ValueError, st')
     end).
Proof.
  split_and!.
  - intros fuel kw args env st [-> | ->] Hlen;
      by destruct args as [|?[|?[|??]]].
  - by intros fuel kw env st [-> | ->].
  - intros fuel kw target e env st v st1 Hkw Htarget He.
    assert (symbol_value target = Raise AttributeError) as Hsym.
    { destruct target; try done. by destruct (Htarget s). }
    destruct Hkw as [-> | ->].
    + change (eval_expr (S fuel) _ env st)
        with ((do val <- eval_expr fuel e env;
               do var <- lift (symbol_value target);
               do_ define env var val;
               ret val) st).
      rewrite (bind_Return _ _ _ _ _ He). unfold bind, lift. by rewrite Hsym.
    + change (eval_expr (S fuel) _ env st)
        with ((do val <- eval_expr fuel e env;
               do var <- lift (symbol_value target);
               do_ update env var val;
               ret val) st).
      rewrite (bind_Return _ _ _ _ _ He). unfold bind, lift. by rewrite Hsym.
  - intros fuel params body_exprs env st result. subst result.
    destruct params as [n|name|l].
    + by apply eval_expr_lambda_raise.
    + intros Hname. apply eval_expr_lambda_raise. by destruct name.
    + intros Hl. apply eval_expr_lambda_raise. by apply values_of_not_symbol.
  - intros fuel binding_list body_exprs env st result st'. subst result st'.
    rewrite eval_expr_let.
    destruct binding_list as [n|name|[|[n|name|binding] rest]]; try done.
    + intros Hname. by destruct name.
    + by destruct name as [|a [|b [|c name]]].
    + intros Hlen. by destruct binding as [|?[|?[|??]]].
Qed.

Lemma ill_formed_forms_witness :
  eval_expr 1 (SList [Symbol "define"; Symbol "x"]) global_env (mkState 0 init)
  = (Raise ValueError, mkState 0 init).
Proof.
  refine (proj1 ill_formed_forms 0 "define" [Symbol "x"] global_env
            (mkState 0 init) _ _).
  - by left.
  - simpl. lia.
Defined.

(** ** Calls of builtins *)

Lemma to_float_raises n e : to_float n = Raise e → e = OverflowError.
Proof.
  destruct n; [|done]. simpl. unfold int_to_float. case_match; [|done].
  by intros [= <-].
Qed.

Lemma binop_raises b x y e :
  binop b x y = Raise e → e = ZeroDivisionError ∨ e = OverflowError.
Proof.
  assert (∀ (k : spec_float → spec_float → outcome number),
            (∀ a c, k a c = Raise e →
                    e = ZeroDivisionError ∨ e = OverflowError) →
            (a ← to_float x; c ← to_float y; k a c) = Raise e →
            e = ZeroDivisionError ∨ e = OverflowError) as Hfloat.
  { intros k Hk.
    destruct (to_float x) as [a|e1| |] eqn:Hx; cbn; try done;
      [|intros [= <-]; right; by eapply to_float_raises].
    destruct (to_float y) as [c|e2| |] eqn:Hy; cbn; try done;
      [apply Hk|intros [= <-]; right; by eapply to_float_raises]. }
  destruct b; cbn [binop]; unfold arith, truediv.
  - destruct x, y; try done; by apply Hfloat.
  - destruct x, y; try done; by apply Hfloat.
  - destruct x, y; try done; by apply Hfloat.
  - destruct x, y;
      try (apply Hfloat; intros a c; case_match; [intros [= <-]; by left|done]).
    repeat case_match; try done; intros [= <-]; eauto.
Qed.

Lemma call_builtin_type_error b vs :
  call_builtin b vs = Raise TypeError ↔
  length vs ≠ 2 ∨ ∃ v, v ∈ vs ∧ ¬ is_number v.
Proof.
  assert (∀ n, is_number (VNum n)) as Hnum by (by eexists).
  assert (∀ v, (∀ n, v ≠ VNum n) → ¬ is_number v) as Hnot.
  { intros v Hv [n ->]. by destruct (Hv n). }
  split.
  - destruct vs as [|v1 [|v2 [|v3 vs]]]; simpl; try (left; lia).
    destruct v1 as [x| | |];
      try (intros _; right; eexists; split; [apply list_elem_of_here|by apply Hnot]).
    destruct v2 as [y| | |];
      try (intros _; right; eexists; split;
           [apply list_elem_of_further, list_elem_of_here|by apply Hnot]).
    destruct (binop b x y) as [?|e| |] eqn:Hb; cbn; try done.
    intros [= ->]. by apply binop_raises in Hb as [|].
  - intros [Hlen|(v & Hv & Hnum')].
    + destruct vs as [|v1 [|v2 [|v3 vs]]]; simpl in *; try done;
        by repeat case_match.
    + destruct vs as [|v1 [|v2 [|v3 vs]]]; simpl; try done;
        [by repeat case_match| |by repeat case_match].
      destruct v1 as [x| | |]; try done. destruct v2 as [y| | |]; try done.
      apply elem_of_cons in Hv as [->|Hv]; [by destruct Hnum'|].
      apply elem_of_cons in Hv as [->|Hv]; [by destruct Hnum'|].
      by apply elem_of_nil in Hv.
Qed.

Lemma eval_args_length ev args env : ∀ st vs st',
  eval_args ev args env st = (Return vs, st') → length vs = length args.
Proof.
  induction args as [|a args IH]; intros st vs st'; simpl.
  - by intros [= <- <-].
  - unfold bind at 1. destruct (ev a env st) as [[v| | |] st1]; try done.
    unfold bind at 1.
    destruct (eval_args ev args env st1) as [[vs'| | |] st2] eqn:Hargs; try done.
    intros [= <- <-]. simpl. f_equal. by eapply IH.
Qed.

Lemma eval_args_values fuel args env : ∀ st,
  eval_args (eval_expr fuel) args env st = values_in_order fuel env args st.
Proof.
  induction args as [|a args IH]; intros st; [done|].
  cbn [eval_args values_in_order]. apply bind_ext. intros v st1.
  unfold bind. by rewrite IH.
Qed.

Lemma eval_expr_call_builtin fuel op args env st b st1 :
  is_keyword op = false →
  eval_expr fuel op env st = (Return (VBuiltin b), st1) →
  eval_expr (S fuel) (SList (op :: args)) env st
  = (do vs <- values_in_order fuel env args; lift (call_builtin b vs)) st1.
Proof.
  intros Hop Heval.
  rewrite (eval_expr_call _ _ _ _ Hop), (bind_Return _ _ _ _ _ Heval).
  unfold bind. by rewrite eval_args_values.
Qed.

(** X11. A call whose operator evaluates to a builtin first evaluates
    every argument expression, in order and each in the frame of the
    caller, and only then calls the builtin on the values: an exception of
    an argument is the exception of the call, also when the number of
    arguments is wrong.  Once the arguments are evaluated, the call
    creates nothing more, and it raises Python's [TypeError] exactly when
    there are not two arguments or one of the values is not a number.
    [(let ((y 5)) (+ y 1))] returns 6: the argument [y] is found in the
    frame of the [let], from which [+] is called. *)
Theorem builtin_call_type_errors :
  (∀ fuel op args env st b st1,
     is_keyword op = false →
     eval_expr fuel op env st = (Return (VBuiltin b), st1) →
     eval_expr (S fuel) (SList (op :: args)) env st
     = (do vs <- values_in_order fuel env args; lift (call_builtin b vs)) st1) ∧
  (∀ fuel op args env st b st1 x st2,
     is_keyword op = false →
     eval_expr fuel op env st = (Return (VBuiltin b), st1) →
     values_in_order fuel env args st1 = (Raise x, st2) →
     eval_expr (S fuel) (SList (op :: args)) env st = (Raise x, st2)) ∧
  (∀ fuel op args env st b st1 vs st2,
     is_keyword op = false →
     eval_expr fuel op env st = (Return (VBuiltin b), st1) →
     values_in_order fuel env args st1 = (Return vs, st2) →
     let result := eval_expr (S fuel) (SList (op :: args)) env st in
     result.2 = st2 ∧
     (result.1 = Raise TypeError ↔
        length args ≠ 2 ∨ ∃ v, v ∈ vs ∧ ¬ is_number v)) ∧
  (∀ k c,
     eval_expr (3 + k) let_calling_builtin global_env (mkState c init)
     = (Return (VNum (PyInt 6)),
        mkState c (mkInterpreter
          [mkEnvironment 0 None builtins;
           mkEnvironment 1 (Some 0) {["y" := VNum (PyInt 5)]}] []))).
Proof.
  split_and!.
  - apply eval_expr_call_builtin.
  - intros fuel op args env st b st1 x st2 Hop Heval Hargs.
    rewrite (eval_expr_call_builtin _ _ _ _ _ _ _ Hop Heval).
    unfold bind. by rewrite Hargs.
  - intros fuel op args env st b st1 vs st2 Hop Heval Hargs result.
    unfold result.
    rewrite (eval_expr_call_builtin _ _ _ _ _ _ _ Hop Heval),
      (bind_Return _ _ _ _ _ Hargs).
    split; [done|]. simpl. rewrite <-eval_args_values in Hargs.
    by rewrite call_builtin_type_error, (eval_args_length _ _ _ _ _ _ Hargs).
  - by intros k c; vm_compute.
Qed.

Lemma builtin_call_type_errors_witness :
  let st := (define 1 "y" (VNum (PyInt 5))
               (new_env global_env (mkState 0 init)).2).2 in
  eval_expr 2 (SList [Symbol "+"; Symbol "y"; int 1; Symbol "z"]) 1 st
  = (Raise (NameError "z"), st).
Proof.
  intros st.
  refine (proj1 (proj2 builtin_call_type_errors) 1 (Symbol "+")
            [Symbol "y"; int 1; Symbol "z"] 1 st Add st (NameError "z") st _ _ _).
  - reflexivity.
  - vm_compute. reflexivity.
  - vm_compute. reflexivity.
Defined.

(** ** More fuel changes nothing *)

Lemma settles_refl {A} (m : M state A) : settles m m.
Proof. by intros st r st' ? _. Qed.

Lemma settles_bind {A B} (m m' : M state A) (k k' : A → M state B) :
  settles m m' → (∀ a, settles (k a) (k' a)) → settles (bind m k) (bind m' k').
Proof.
  intros Hm Hk st r st'. unfold bind.
  destruct (m st) as [[a| | |] st1] eqn:Hmst.
  - intros Hka Hr. rewrite (Hm _ _ _ Hmst) by done. by apply Hk.
  - intros [= <- <-] _. by rewrite (Hm _ _ _ Hmst).
  - by intros [= <- <-] ?.
  - intros [= <- <-] _. by rewrite (Hm _ _ _ Hmst).
Qed.

Section Settles.
Variables ev ev' : sexp → nat → M state value.
Hypothesis Hev : ∀ e env, settles (ev e env) (ev' e env).

Lemma settles_eval_each exprs env : ∀ result,
  settles (eval_each ev result exprs env) (eval_each ev' result exprs env).
Proof.
  induction exprs as [|e exprs IH]; intros result; simpl;
    [apply settles_refl|].
  apply settles_bind; auto.
Qed.

Lemma settles_eval_element x env :
  settles (eval_element ev x env) (eval_element ev' x env).
Proof. destruct x; [apply Hev|apply settles_refl]. Qed.

Lemma settles_bind_let bl env let_env :
  settles (bind_let ev bl env let_env) (bind_let ev' bl env let_env).
Proof.
  induction bl as [|b bl IH]; simpl; [apply settles_refl|].
  repeat (apply settles_bind;
          [first [apply settles_eval_element | apply settles_refl]|intros ?]).
  apply IH.
Qed.

Lemma settles_eval_args args env :
  settles (eval_args ev args env) (eval_args ev' args env).
Proof.
  induction args as [|a args IH]; simpl; [apply settles_refl|].
  apply settles_bind; [apply Hev|intros ?].
  apply settles_bind; [apply IH|intros ?]. apply settles_refl.
Qed.

Lemma settles_bind_params ps : ∀ args env call_env,
  settles (bind_params ev ps args env call_env)
          (bind_params ev' ps args env call_env).
Proof.
  induction ps as [|p ps IH]; intros [|a args] env call_env; simpl;
    try apply settles_refl.
  apply settles_bind; [apply Hev|intros ?].
  apply settles_bind; [apply settles_refl|intros ?]. apply IH.
Qed.
End Settles.

Lemma settles_eval_expr fuel : ∀ expr env,
  settles (eval_expr fuel expr env) (eval_expr (S fuel) expr env).
Proof.
  induction fuel as [|fuel IH]; intros expr env.
  { intros st r st' [= <- <-] Hr. by destruct Hr. }
  set (f2 := S (S fuel)). cbn [eval_expr]. subst f2.
  remember (S fuel) as f1 eqn:Hf1. clear Hf1.
  cbn [eval_expr].
  pose proof (settles_eval_each _ _ IH) as H1.
  pose proof (settles_bind_let _ _ IH) as H2.
  pose proof (settles_eval_args _ _ IH) as H3.
  pose proof (settles_bind_params _ _ IH) as H4.
  destruct expr as [n|s|[|op args]]; try apply settles_refl.
  repeat case_match; subst; try apply settles_refl; try apply H1;
    repeat (apply settles_bind;
            [first [apply IH | apply H2 | apply settles_refl]|intros ?]);
    try apply settles_refl; try apply H1.
  match goal with |- settles (match ?v with _ => _ end) _ => destruct v end;
    try apply settles_refl;
    repeat (apply settles_bind;
            [first [apply IH | apply H3 | apply H4 | apply settles_refl]|intros ?]);
    first [apply settles_refl | apply IH].
Qed.

Lemma settles_eval_expr_le fuel fuel' expr env :
  fuel ≤ fuel' → settles (eval_expr fuel expr env) (eval_expr fuel' expr env).
Proof.
  induction 1 as [|fuel' _ IH]; [apply settles_refl|].
  intros st r st' Heval Hr. apply settles_eval_expr; [|done]. by apply IH.
Qed.

(** X12. The result of an evaluation does not depend on how deep the
    recursion may go, once it may go deep enough: an evaluation that ends
    within some fuel, with a value or with an exception, ends the same way
    and in the same state within any larger fuel, and so does a run. *)
Theorem more_fuel_same_result :
  (∀ fuel fuel' expr env st r st',
     fuel ≤ fuel' → r ≠ OutOfFuel →
     eval_expr fuel expr env st = (r, st') →
     eval_expr fuel' expr env st = (r, st')) ∧
  (∀ fuel fuel' exprs st r st',
     fuel ≤ fuel' → r ≠ OutOfFuel →
     run fuel exprs st = (r, st') →
     run fuel' exprs st = (r, st')).
Proof.
  split.
  - intros fuel fuel' expr env st r st' Hle Hr Heval.
    by eapply settles_eval_expr_le.
  - intros fuel fuel' exprs st r st' Hle Hr Hrun.
    assert (settles (run fuel exprs) (run fuel' exprs)) as Hs; [|by apply Hs].
    clear -Hle. induction exprs as [|e exprs IH]; simpl; [apply settles_refl|].
    apply settles_bind; [by apply settles_eval_expr_le|intros _; apply IH].
Qed.

Lemma more_fuel_same_result_witness :
  eval_expr 10 let_set_example global_env (mkState 0 init)
  = eval_expr 3 let_set_example global_env (mkState 0 init).
Proof.
  refine (proj1 more_fuel_same_result 3 10 let_set_example global_env
            (mkState 0 init)
            (eval_expr 3 let_set_example global_env (mkState 0 init)).1
            (eval_expr 3 let_set_example global_env (mkState 0 init)).2 _ _ _).
  - lia.
  - by vm_compute.
  - apply surjective_pairing.
Defined.

(** ** Lexical scope *)

Lemma bind_params_none ev ps args env call_env (st : state) :
  ps = [] ∨ args = [] → bind_params ev ps args env call_env st = (Return (), st).
Proof. intros [->| ->]; [done|by destruct ps]. Qed.

(** X13. A closure keeps a reference to its defining frame, not a copy of
    it, and its body does not see the frame of the caller.  When the
    operator of a call evaluates to a closure whose body is a variable, and
    no parameter gets bound (the closure has none, or the call passes no
    argument), the call returns what [lookup] finds for the variable from
    the defining frame in the store as it is at the time of the call,
    whatever frame the call is made from; the only change to the store is
    the new, empty call frame under the defining frame. *)
Theorem closure_resolves_in_defining_frame fuel op args env st c st1 x :
  is_keyword op = false →
  eval_expr fuel op env st = (Return (VClosure c), st1) →
  wf st1 → valid (def_env_id c) st1 →
  params c = [] ∨ args = [] → body c = Symbol x →
  eval_expr (S fuel) (SList (op :: args)) env st
  = ((lookup (def_env_id c) x st1).1,
     set_envs (envs (self st1) ++
                 [mkEnvironment (length (envs (self st1)))
                    (Some (def_env_id c)) ∅]) st1).
Proof.
  intros Hop Heval Hwf Hv Hnone Hbody.
  rewrite (eval_expr_call _ _ _ _ Hop), (bind_Return _ _ _ _ _ Heval).
  destruct fuel as [|fuel]; [done|].
  unfold bind at 1, envs_index. rewrite decide_True by done.
  unfold bind at 1, new_env. unfold bind.
  rewrite bind_params_none by done. rewrite Hbody.
  change (eval_expr (S fuel) (Symbol x)) with (λ env, lookup env x).
  unfold lookup, set_envs. cbn [self envs closure_counter fst snd].
  f_equal. rewrite length_app, Nat.add_1_r. cbn [lookup_from].
  rewrite lookup_app_r, Nat.sub_diag by done. cbn.
  by apply (lookup_from_app _ _ _ (wf_parent _ Hwf)).
Qed.

Lemma closure_resolves_in_defining_frame_witness :
  let st := (run 3 capture_program (mkState 0 init)).2 in
  let c := mkClosure 0 [] (Symbol "x") 0 in
  eval_expr 2 (SList [Symbol "f"]) global_env st
  = (Return (VNum (PyInt 2)),
     set_envs (envs (self st) ++ [mkEnvironment 1 (Some 0) ∅]) st).
Proof.
  intros st c.
  refine (closure_resolves_in_defining_frame 1 (Symbol "f") [] global_env st c st
            "x" _ _ _ _ _ _).
  - reflexivity.
  - vm_compute. reflexivity.
  - refine (proj1 (triple_run 3 capture_program (mkState 0 init)
                     (run 3 capture_program (mkState 0 init)).1 st
                     (wf_init 0) _ _)).
    + unfold valid, global_env. simpl. lia.
    + apply surjective_pairing.
  - unfold valid. vm_compute. lia.
  - by left.
  - reflexivity.
Defined.

(** ** The arithmetic of the builtins *)

(** The conversion of an [int] to a [float] rounds; it never rounds a
    non-zero integer to zero. *)

Lemma shr_1_digits mrs p :
  shr_m mrs = Zpos p → (1 < digits2_pos p)%positive →
  ∃ q, shr_m (shr_1 mrs) = Zpos q ∧ digits2_pos p = Pos.succ (digits2_pos q).
Proof.
  destruct mrs as [m r s]. simpl. intros -> Hp.
  destruct p as [q|q|]; simpl in *; [by exists q..|lia].
Qed.

Lemma iter_shr_1_digits n : ∀ mrs p,
  shr_m mrs = Zpos p → n < Pos.to_nat (digits2_pos p) →
  ∃ q, shr_m (Nat.iter n shr_1 mrs) = Zpos q.
Proof.
  induction n as [|n IH]; intros mrs p Hm Hn; [by exists p|].
  rewrite Nat.iter_succ_r.
  destruct (shr_1_digits mrs p Hm) as (q & Hq & Hd); [lia|].
  apply (IH _ q Hq). lia.
Qed.

Lemma shr_fexp_positive p e l :
  (emin prec emax ≤ e)%Z →
  ∃ q, shr_m (shr_fexp prec emax (Zpos p) e l).1 = Zpos q ∧
       (emin prec emax ≤ (shr_fexp prec emax (Zpos p) e l).2)%Z.
Proof.
  intros He. unfold shr_fexp, shr.
  assert (shr_m (shr_record_of_loc (Zpos p) l) = Zpos p) as Hm
    by (by destruct l as [|[]]).
  destruct (fexp prec emax (Zdigits2 (Zpos p) + e) - e)%Z as [|k|k] eqn:Hk;
    simpl; [by eauto| |by eauto].
  rewrite iter_pos_nat.
  assert (Z.pos k < Z.pos (digits2_pos p))%Z as Hlt.
  { revert Hk. unfold fexp, Zdigits2, prec in *. lia. }
  destruct (iter_shr_1_digits (Pos.to_nat k) _ p Hm) as [q Hq]; [lia|].
  exists q. split; [done|lia].
Qed.

Lemma binary_round_aux_not_zero sx p e l :
  (emin prec emax ≤ e)%Z →
  is_zero (binary_round_aux prec emax sx (Zpos p) e l) = false.
Proof.
  intros He. unfold binary_round_aux.
  destruct (shr_fexp_positive p e l He) as (q & Hq & He').
  destruct (shr_fexp prec emax (Z.pos p) e l) as [mrs' e']. simpl in *.
  assert (∃ q', round_nearest_even (shr_m mrs') (loc_of_shr_record mrs') = Zpos q')
    as [q' ->].
  { rewrite Hq. unfold round_nearest_even.
    destruct (loc_of_shr_record mrs') as [|[]]; try case_match; simpl; eauto. }
  destruct (shr_fexp_positive q' e' loc_Exact He') as (q2 & Hq2 & _).
  destruct (shr_fexp prec emax (Z.pos q') e' loc_Exact) as [mrs2 e2]. simpl in *.
  rewrite Hq2. by case_match.
Qed.

Lemma binary_round_not_zero sx p :
  is_zero (binary_round prec emax sx p 0) = false.
Proof.
  unfold binary_round, shl_align.
  case_match; apply binary_round_aux_not_zero.
  unfold fexp, emin, emax, prec in *. case_match; simplify_eq; lia.
Qed.

Lemma binary_normalize_zero z :
  is_zero (binary_normalize prec emax z 0 false) = true → z = 0%Z.
Proof.
  destruct z as [|p|p]; [done|..]; simpl; by rewrite binary_round_not_zero.
Qed.

(** X14. What the four builtins do on two numbers.  The result is a
    [float] exactly when the operator is [/] or one of the operands is a
    [float]: [+], [-] and [*] on two [int]s give an [int].  The only
    exceptions are [ZeroDivisionError], raised by [/] alone and only for a
    divisor equal to zero, and [OverflowError], raised only when an operand
    is an [int]: on two [float]s [+], [-] and [*] always return. *)
Theorem arithmetic_outcomes (b : builtin) (x y : number) :
  match binop b x y with
  | Return n => is_float n = is_div b || is_float x || is_float y
  | Raise e =>
      (e = ZeroDivisionError ∧ b = Div ∧ number_is_zero y = true) ∨
      (e = OverflowError ∧ (is_float x = false ∨ is_float y = false))
  | _ => False
  end.
Proof.
  destruct b, x as [a|a], y as [c|c]; simpl; unfold int_to_float;
    repeat (match goal with
            | |- context [if ?b then _ else _] => destruct b eqn:?
            end; simpl);
    auto 6.
  left. split_and!; [done..|]. by apply Z.eqb_eq, binary_normalize_zero.
Qed.
